(** * A shallow embedding of the [@smounters/fsm] execution engine

    The development follows the layout of the package:
    - [types.ts]   : [FSMTransition], [FSMStateResult], [FSMStateHandler],
                     [FSMStateMap];
    - [helpers.ts] : [createState], [transitionTo], [conditionalTransition],
                     [eventBasedTransition], [finalTransition];
    - [fsm.ts]     : the class [FSM] with its async generator [run] and the
                     synchronous accessors and mutators.

    Modelling choices.
    - The state type parameter [S extends string | number | symbol] is taken
      at [string], the instance used by every example of the package; the
      state map, a JS object indexed by the state, is a [gmap string _],
      the own properties of the object, and its prototype is
      [Object.prototype], as for an object literal: [o[name]] is the own
      property [name] when there is one and the member of
      [Object.prototype] of that name otherwise ([get]).  An own
      property of a state map holds a handler (a property set to
      [undefined] is not part of the model).  The JS truthiness test
      applied to a state ([this.currentState && ...], [... || null]) is
      [truthy]: a string is falsy exactly when it is empty.
    - The failures handlers raise are the values of a type [Err] that has
      the [TypeError] of a call of something that is not a function
      ([TypeErrors]); the values [null] and [undefined] of the context
      type, the ones [??] replaces, are told by [nullish] ([Nullish]).
    - A handler function is a pure function of its arguments whose call
      either returns or throws: its codomain is a [Completion].
    - A method of the class is a computation over the fields of the
      instance that may throw and that records, in order, the handler
      functions it invokes, the context assignments of [run] and the events
      [run] yields ([Eng]).
    - The async generator returned by [run] is the record of where its body
      is suspended ([Generator]) together with the function [next] which
      resumes the body up to the following [yield], to the end of the loop,
      or to an uncaught exception.  A consumer resumes the generator with
      [next] only (as [for await] does while it iterates), and between two
      pulls it may call the synchronous methods of the engine. *)

From stdpp Require Import base option list strings gmap.

(** ** types.ts *)

Module Types.

(** A state identifier, and the JS truthiness of one. *)
Abbreviation StateId := string (only parsing).

Definition truthy (s : StateId) : bool := bool_decide (s ≠ "").

(** How the call of a JS function ends: it returns a value or throws. *)
Inductive Completion (Err A : Type) : Type :=
| Normal (a : A)
| Throw (err : Err).
Arguments Normal {Err A} a.
Arguments Throw {Err A} err.

(** The failure of the language when what is called is not a function,
    [TypeError: ... is not a function]. *)
Class TypeErrors (Err : Type) : Type := type_error : Err.

(** The values of a type that are [null] or [undefined]: [v ?? w] is [w]
    exactly for them. *)
Class Nullish (C : Type) : Type := nullish : C → bool.

(** The names of the members of [Object.prototype], which every object
    literal inherits. *)
Definition inherited_names : list string :=
  ["constructor"; "toString"; "toLocaleString"; "valueOf"; "hasOwnProperty";
   "isPrototypeOf"; "propertyIsEnumerable"; "__proto__"; "__defineGetter__";
   "__defineSetter__"; "__lookupGetter__"; "__lookupSetter__"].

Definition inherited (name : string) : bool :=
  bool_decide (name ∈ inherited_names).

(** What [o[name]] evaluates to, for an object [o] with the own
    properties of a map: the own property, else the member of that name
    inherited from [Object.prototype] (a function, or for [__proto__] the
    prototype itself: truthy, and without any of the members of a
    handler), else [undefined] ([None]). *)
Inductive Property (A : Type) : Type :=
| Own (a : A)
| Inherited (name : string).
Arguments Own {A} a.
Arguments Inherited {A} name.

Definition get {A} (o : gmap string A) (name : string)
    : option (Property A) :=
  match o !! name with
  | Some a => Some (Own a)
  | None => if inherited name then Some (Inherited name) else None
  end.

(** [FSMTransition<S, E, C>]: [(event, context) => S | null]. *)
Abbreviation FSMTransition E C Err :=
  (E → C → Completion Err (option StateId)) (only parsing).

(** [FSMStateResult<E, C>]. *)
Record FSMStateResult (E C : Type) : Type := {
  event : E;
  context : C;
}.
Arguments event {E C} _.
Arguments context {E C} _.

(** [FSMStateHandler<S, E, C>]; the optional members are options. *)
Record FSMStateHandler (E C Err : Type) : Type := {
  execute : C → Completion Err (FSMStateResult E C);
  onEnter : option (C → Completion Err ());
  onExit : option (E → C → Completion Err ());
  onError : option (Err → C → Completion Err ());
  transition : FSMTransition E C Err;
}.
Arguments execute {E C Err} _.
Arguments onEnter {E C Err} _.
Arguments onExit {E C Err} _.
Arguments onError {E C Err} _.
Arguments transition {E C Err} _.

(** [FSMStateMap<S, E, C>]. *)
Abbreviation FSMStateMap E C Err :=
  (gmap string (FSMStateHandler E C Err)) (only parsing).

End Types.
Export Types.

(** ** helpers.ts *)

Module Helpers.
Section helpers.
Context {E C Err : Type}.

(** The [options] argument of [createState]: the handler members other
    than [execute] and [transition]. *)
Record Options : Type := {
  opt_onEnter : option (C → Completion Err ());
  opt_onExit : option (E → C → Completion Err ());
  opt_onError : option (Err → C → Completion Err ());
}.

Definition no_options : Options :=
  {| opt_onEnter := None; opt_onExit := None; opt_onError := None |}.

Definition createState
    (execute : C → Completion Err (FSMStateResult E C))
    (transition : FSMTransition E C Err)
    (options : Options) : FSMStateHandler E C Err :=
  {| execute := execute;
     transition := transition;
     onEnter := opt_onEnter options;
     onExit := opt_onExit options;
     onError := opt_onError options |}.

(** The [logger] argument of [createStateWithLogging]: callbacks that are
    given the state first. *)
Record Logger : Type := {
  log_onEnter : option (StateId → C → Completion Err ());
  log_onExit : option (StateId → E → C → Completion Err ());
  log_onError : option (StateId → Err → C → Completion Err ());
}.

Definition no_logger : Logger :=
  {| log_onEnter := None; log_onExit := None; log_onError := None |}.



Definition transitionTo (nextState : StateId) : FSMTransition E C Err :=
  λ _ _, Normal (Some nextState).

(** [for (const condition of conditions) if (condition.when(..)) return
    condition.then;  return defaultState]. *)
Fixpoint conditionalTransition
    (conditions : list ((E → C → bool) * StateId))
    (defaultState : option StateId) : FSMTransition E C Err :=
  λ event context,
    match conditions with
    | [] => Normal defaultState
    | (when, then_) :: conditions =>
        if when event context then Normal (Some then_)
        else conditionalTransition conditions defaultState event context
    end.

(** [(event) => eventMap[event.type] || null]: [||] replaces a falsy left
    operand, that is [undefined] or a falsy state.  For a tag that is no
    own key of [eventMap] but the name of a member of [Object.prototype],
    the left operand is that member, which is truthy and is what the
    function returns: the value is then none of the states, so the
    codomain is wider than that of an [FSMTransition]. *)
Definition eventBasedTransition (type : E → string)
    (eventMap : gmap string StateId)
    : E → C → Completion Err (option (Property StateId)) :=
  λ event _,
    Normal (match get eventMap (type event) with
            | Some (Own s) => if truthy s then Some (Own s) else None
            | Some (Inherited name) => Some (Inherited name)
            | None => None
            end).

Definition finalTransition : FSMTransition E C Err :=
  λ _ _, Normal None.
End helpers.
Arguments Options : clear implicits.
Arguments Logger : clear implicits.
End Helpers.

(** ** fsm.ts *)

(** What an engine does, in the order it does it: the calls of the handler
    functions with their arguments (for [execute], with how the call
    completed), the assignment [this.context = result.context] of [run],
    and the events [run] yields.  A call is labelled with the state whose
    handler is called. *)
Inductive Effect (E C Err : Type) : Type :=
| CallOnEnter (s : StateId) (ctx : C)
| CallExecute (s : StateId) (ctx : C)
    (completion : Completion Err (FSMStateResult E C))
| Commit (ctx : C)
| CallOnExit (s : StateId) (ev : E) (ctx : C)
| Yield (ev : E)
| CallTransition (s : StateId) (ev : E) (ctx : C)
| CallOnError (s : StateId) (err : Err) (ctx : C).
Arguments CallOnEnter {E C Err} s ctx.
Arguments CallExecute {E C Err} s ctx completion.
Arguments Commit {E C Err} ctx.
Arguments CallOnExit {E C Err} s ev ctx.
Arguments Yield {E C Err} ev.
Arguments CallTransition {E C Err} s ev ctx.
Arguments CallOnError {E C Err} s err ctx.

Module FSM.

(** The fields of an instance. *)
Record t (E C Err : Type) : Type := {
  context : C;
  currentState : option StateId;
  states : FSMStateMap E C Err;
}.
Arguments context {E C Err} _.
Arguments currentState {E C Err} _.
Arguments states {E C Err} _.

Section engine.
Context {E C Err : Type} `{!Nullish C, !TypeErrors Err}.
Local Abbreviation FSM := (t E C Err).
Local Abbreviation Handler := (FSMStateHandler E C Err).
Local Abbreviation Result := (FSMStateResult E C).
Local Abbreviation Trace := (list (Effect E C Err)).

(** [constructor(initialContext, initialState, states)]. *)
Definition new (initialContext : C) (initialState : StateId)
    (states : FSMStateMap E C Err) : FSM :=
  {| context := initialContext;
     currentState := Some initialState;
     states := states |}.

(** *** Computations of the engine *)

Definition Eng (A : Type) : Type := FSM → Completion Err A * FSM * Trace.

Definition ret {A} (a : A) : Eng A := λ this, (Normal a, this, []).

Definition bind {A B} (m : Eng A) (k : A → Eng B) : Eng B :=
  λ this,
    match m this with
    | (Normal a, this1, tr1) =>
        let '(r, this2, tr2) := k a this1 in (r, this2, tr1 ++ tr2)
    | (Throw err, this1, tr1) => (Throw err, this1, tr1)
    end.

Definition throw {A} (err : Err) : Eng A := λ this, (Throw err, this, []).

(** [try { m } catch (error) { handler error }]. *)
Definition try_catch {A} (m : Eng A) (handler : Err → Eng A) : Eng A :=
  λ this,
    match m this with
    | (Normal a, this1, tr1) => (Normal a, this1, tr1)
    | (Throw err, this1, tr1) =>
        let '(r, this2, tr2) := handler err this1 in (r, this2, tr1 ++ tr2)
    end.

(** The call of a handler function, recorded as the effect [eff]. *)
Definition call {A} (eff : Effect E C Err) (r : Completion Err A) : Eng A :=
  λ this, (r, this, [eff]).

Definition emit (eff : Effect E C Err) : Eng () :=
  λ this, (Normal (), this, [eff]).

Definition get_context : Eng C := λ this, (Normal (context this), this, []).
Definition get_currentState : Eng (option StateId) :=
  λ this, (Normal (currentState this), this, []).

(** The fields after an assignment to [this.context], to
    [this.currentState]. *)
Definition with_context (ctx : C) (this : FSM) : FSM :=
  {| context := ctx; currentState := currentState this;
     states := states this |}.
Definition with_currentState (s : option StateId) (this : FSM) : FSM :=
  {| context := context this; currentState := s; states := states this |}.

(** The assignment [this.context = ctx] of [run], recorded. *)
Definition commit (ctx : C) : Eng () :=
  λ this, (Normal (), with_context ctx this, [Commit ctx]).

Definition set_context (ctx : C) : Eng () :=
  λ this, (Normal (), with_context ctx this, []).
Definition set_currentState (s : option StateId) : Eng () :=
  λ this, (Normal (), with_currentState s this, []).
#[global] Instance eng_ret : MRet Eng := @ret.
#[global] Instance eng_bind : MBind Eng := λ A B k m, bind m k.

(** [f?.(...)]: the call is skipped when the member is absent. *)
Definition optional_call {F} (f : option F) (k : F → Eng ()) : Eng () :=
  match f with
  | Some f => k f
  | None => mret ()
  end.

(** The statements of the [try] block that precede [yield], for the
    handler [stateHandler] of the state [s]. *)
Definition try_until_yield (s : StateId) (stateHandler : Handler)
    : Eng Result :=
  (* await stateHandler.onEnter?.(this.context); *)
  optional_call (onEnter stateHandler)
    (λ f, ctx ← get_context; call (CallOnEnter s ctx) (f ctx));;
  (* const result = await stateHandler.execute(this.context); *)
  ctx ← get_context;
  result ← call (CallExecute s ctx (execute stateHandler ctx))
                (execute stateHandler ctx);
  (* this.context = result.context; *)
  commit (Types.context result);;
  (* await stateHandler.onExit?.(result.event, this.context); *)
  optional_call (onExit stateHandler)
    (λ f, ctx ← get_context;
          call (CallOnExit s (event result) ctx) (f (event result) ctx));;
  mret result.

(** The [catch] clause: [await stateHandler.onError?.(error,
    this.context); throw error]. *)
Definition catch_clause {A} (s : StateId) (stateHandler : Handler)
    (error : Err) : Eng A :=
  optional_call (onError stateHandler)
    (λ f, ctx ← get_context; call (CallOnError s error ctx) (f error ctx));;
  throw error.

(** The statement of the [try] block that follows [yield]:
    [this.currentState = stateHandler.transition(result.event,
    this.context)]. *)
Definition try_after_yield (s : StateId) (stateHandler : Handler)
    (result : Result) : Eng () :=
  ctx ← get_context;
  next_state ← call (CallTransition s (event result) ctx)
                    (transition stateHandler (event result) ctx);
  set_currentState next_state.

(** Where the body of [run] is suspended.  At a [yield] the generator
    holds the locals of the iteration, [stateHandler] and [result]; the
    state [s] the handler was looked up for is kept with them to label
    the recorded calls. *)
Inductive Generator : Type :=
| SuspendedStart
| SuspendedYield (s : StateId) (stateHandler : Handler) (result : Result)
| Completed.

(** The condition of the [while] statement, [this.currentState &&
    this.states[this.currentState]]: when it holds, the current state and
    what the state map gives for it, which the body binds to
    [stateHandler]. *)
Definition while_condition (this : FSM)
    : option (StateId * Property Handler) :=
  s ← currentState this;
  if truthy s then
    stateHandler ← get (states this) s; Some (s, stateHandler)
  else None.

(** The [while] statement, from the evaluation of its condition up to the
    next [yield] ([Some]: the locals of the suspended iteration) or to
    the exit of the loop ([None]).  When [stateHandler] is a member of
    [Object.prototype], [stateHandler.onEnter] is [undefined] and the
    optional call is skipped, [stateHandler.execute] is [undefined] and
    its call raises a [TypeError] in the [try] block, and in the [catch]
    clause [stateHandler.onError] is [undefined], so that the failure is
    thrown again at once. *)
Definition run_while : Eng (option (StateId * Handler * Result)) :=
  λ this,
    match while_condition this with
    | Some (s, Own stateHandler) =>
        try_catch
          (result ← try_until_yield s stateHandler;
           emit (Yield (event result));;
           mret (Some (s, stateHandler, result)))
          (catch_clause s stateHandler) this
    | Some (s, Inherited _) =>
        try_catch (throw type_error) (λ error, throw error) this
    | None => ret None this
    end.

(** What [await generator.next()] gives the consumer. *)
Inductive IteratorResult : Type :=
| Yielded (value : E)
| Done
| Rejected (error : Err).

Definition settle
    (r : Completion Err (option (StateId * Handler * Result)) * FSM * Trace)
    : IteratorResult * FSM * Generator * Trace :=
  match r with
  | (Normal (Some (s, stateHandler, result)), this, tr) =>
      (Yielded (event result), this, SuspendedYield s stateHandler result, tr)
  | (Normal None, this, tr) => (Done, this, Completed, tr)
  | (Throw error, this, tr) => (Rejected error, this, Completed, tr)
  end.

(** [generator.next()] on the generator of [this.run()]. *)
Definition next (g : Generator) (this : FSM)
    : IteratorResult * FSM * Generator * Trace :=
  match g with
  | SuspendedStart => settle (run_while this)
  | SuspendedYield s stateHandler result =>
      settle ((try_catch (try_after_yield s stateHandler result)
                         (catch_clause s stateHandler);;
               run_while) this)
  | Completed => (Done, this, Completed, [])
  end.

(** [this.run()]: calling the generator function runs nothing of its
    body and returns a generator suspended at the start. *)
Definition run (this : FSM) : Generator := SuspendedStart.

(** *** The synchronous methods *)

Definition getCurrentState : Eng (option StateId) := get_currentState.

Definition getContext : Eng C := get_context.

Definition setState (state : StateId) : Eng () :=
  set_currentState (Some state).

Definition updateContext (updater : C → C) : Eng () :=
  ctx ← get_context; set_context (updater ctx).

Definition isInState (state : StateId) : Eng bool :=
  cur ← get_currentState; mret (bool_decide (cur = Some state)).

(** [v ?? w], for an optional argument [v]: an argument that is not
    given is [undefined], and a given one may be a value of its type that
    is [null] or [undefined]. *)
Definition nullish_coalesce (v : option C) (w : C) : C :=
  match v with
  | Some c => if nullish c then w else c
  | None => w
  end.

(** [this.context = newContext ?? this.context; this.currentState =
    newState ?? this.currentState].  A state is a string (a number, a
    symbol), never [null] or [undefined]: a given [newState] always
    replaces the current state. *)
Definition reset (newContext : option C) (newState : option StateId)
    : Eng () :=
  ctx ← get_context;
  set_context (nullish_coalesce newContext ctx);;
  cur ← get_currentState;
  set_currentState (from_option Some cur newState).

(** The fields after a synchronous method, and what it recorded. *)
Definition fields_after {A} (m : Eng A) (this : FSM) : FSM := (m this).1.2.
Definition effects_of {A} (m : Eng A) (this : FSM) : Trace := (m this).2.
Definition value_of {A} (m : Eng A) (this : FSM) : Completion Err A :=
  (m this).1.1.

(** *** Consumers *)

(** [for await (const event of fsm.run()) { }] from a generator state:
    the events received, how the loop ended, the fields and the generator
    at that point, and everything the run did.  [None]: more than [fuel]
    pulls are needed. *)
Record Consumed : Type := {
  events : list E;
  outcome : Completion Err ();
  final : FSM;
  final_generator : Generator;
  effects : Trace;
}.

Fixpoint for_await (fuel : nat) (g : Generator) (this : FSM)
    : option Consumed :=
  match fuel with
  | 0 => None
  | S fuel =>
      match next g this with
      | (Yielded value, this1, g1, tr) =>
          r ← for_await fuel g1 this1;
          Some {| events := value :: events r;
                  outcome := outcome r;
                  final := final r;
                  final_generator := final_generator r;
                  effects := tr ++ effects r |}
      | (Done, this1, g1, tr) =>
          Some {| events := []; outcome := Normal ();
                  final := this1; final_generator := g1; effects := tr |}
      | (Rejected error, this1, g1, tr) =>
          Some {| events := []; outcome := Throw error;
                  final := this1; final_generator := g1; effects := tr |}
      end
  end.

(** The holder of an engine and of the generator of one call of
    [this.run()] pulls events and, between two pulls, may call the
    mutators of the engine. *)
Inductive Action : Type :=
| ANext
| ASetState (state : StateId)
| AUpdateContext (updater : C → C)
| AReset (newContext : option C) (newState : option StateId).

Record Session : Type := {
  engine : FSM;
  generator : Generator;
  received : list IteratorResult;
  observed : Trace;
}.

(** [const generator = this.run()]: nothing of the body has run yet. *)
Definition start (this : FSM) : Session :=
  {| engine := this; generator := run this; received := []; observed := [] |}.

Definition method (m : Eng ()) (ses : Session) : Session :=
  {| engine := fields_after m (engine ses);
     generator := generator ses;
     received := received ses;
     observed := observed ses ++ effects_of m (engine ses) |}.

Definition perform (a : Action) (ses : Session) : Session :=
  match a with
  | ANext =>
      let '(r, this, g, tr) := next (generator ses) (engine ses) in
      {| engine := this; generator := g;
         received := received ses ++ [r];
         observed := observed ses ++ tr |}
  | ASetState state => method (setState state) ses
  | AUpdateContext updater => method (updateContext updater) ses
  | AReset newContext newState => method (reset newContext newState) ses
  end.

Definition consume (script : list Action) (ses : Session) : Session :=
  foldl (λ ses a, perform a ses) ses script.

(** The events among the results of a sequence of pulls. *)
Definition emitted (rs : list IteratorResult) : list E :=
  omap (λ r, match r with Yielded value => Some value | _ => None end) rs.

(** *** Vocabulary of the properties *)

(** The machine has terminated: the loop of [run] has nothing to do. *)
Definition terminated (this : FSM) : Prop := while_condition this = None.

(** Along a trace, every context passed to [onExit] and to [transition]
    is the context of the result [execute] returned in the same step, and
    an event is yielded only after [execute] has returned in the step.
    [returned] is that context once [execute] has returned in the step
    under way; the call of [transition] ends the step. *)
Fixpoint contexts_as_returned (returned : option C) (tr : Trace) : Prop :=
  match tr with
  | [] => True
  | CallExecute _ _ (Normal result) :: tr =>
      contexts_as_returned (Some (Types.context result)) tr
  | CallExecute _ _ (Throw _) :: tr => contexts_as_returned None tr
  | CallOnExit _ _ ctx :: tr =>
      returned = Some ctx ∧ contexts_as_returned returned tr
  | Yield _ :: tr => is_Some returned ∧ contexts_as_returned returned tr
  | CallTransition _ _ ctx :: tr =>
      returned = Some ctx ∧ contexts_as_returned None tr
  | _ :: tr => contexts_as_returned returned tr
  end.

(** The same for [onExit] and the events alone: the context passed to
    [transition] is not looked at. *)
Fixpoint onExit_contexts_as_returned (returned : option C) (tr : Trace)
    : Prop :=
  match tr with
  | [] => True
  | CallExecute _ _ (Normal result) :: tr =>
      onExit_contexts_as_returned (Some (Types.context result)) tr
  | CallExecute _ _ (Throw _) :: tr | CallTransition _ _ _ :: tr =>
      onExit_contexts_as_returned None tr
  | CallOnExit _ _ ctx :: tr =>
      returned = Some ctx ∧ onExit_contexts_as_returned returned tr
  | Yield _ :: tr =>
      is_Some returned ∧ onExit_contexts_as_returned returned tr
  | _ :: tr => onExit_contexts_as_returned returned tr
  end.

(** Along a trace, the context of the result of every [execute] that
    returns is assigned to the context field at once, and [run] assigns
    the field nowhere else.  [pending] is the context that is to be
    assigned next. *)
Fixpoint commits_follow_execute (pending : option C) (tr : Trace) : Prop :=
  match tr with
  | [] => True
  | eff :: tr =>
      match pending, eff with
      | Some ctx, Commit ctx' => ctx' = ctx ∧ commits_follow_execute None tr
      | Some _, _ => False
      | None, Commit _ => False
      | None, CallExecute _ _ (Normal result) =>
          commits_follow_execute (Some (Types.context result)) tr
      | None, _ => commits_follow_execute None tr
      end
  end.

(** The generator is suspended at a [yield]: an event has been handed to
    the consumer and the [transition] of the step has not been called. *)
Definition suspended_at_yield (g : Generator) : Prop :=
  match g with
  | SuspendedYield _ _ _ => True
  | SuspendedStart | Completed => False
  end.

(** The action leaves the context field as it is. *)
Definition keeps_context (a : Action) : bool :=
  match a with
  | AUpdateContext _ => false
  | AReset (Some ctx) _ => nullish ctx
  | ANext | ASetState _ | AReset None _ => true
  end.

(** The action leaves the current-state field as it is. *)
Definition keeps_state (a : Action) : bool :=
  match a with
  | ASetState _ | AReset _ (Some _) => false
  | ANext | AUpdateContext _ | AReset _ None => true
  end.

(** An optional hook returns on the arguments [call] applies it to (an
    absent hook is not called). *)
Definition returns {F} (hook : option F) (call : F → Completion Err ())
    : Prop :=
  match hook with
  | Some f => call f = Normal ()
  | None => True
  end.

(** The record of the call of an optional hook. *)
Definition called {F} (hook : option F) (eff : Effect E C Err) : Trace :=
  match hook with
  | Some _ => [eff]
  | None => []
  end.

(** [raises_before_yield s h ctx err ctx' tr]: started with the context
    [ctx], the step of the state [s] with handler [h] raises [err] in
    [onEnter], [execute] or [onExit]; [ctx'] is the context field at that
    point and [tr] what the step has done, the failing call included. *)
Inductive raises_before_yield (s : StateId) (h : Handler) (ctx : C)
    (err : Err) : C → Trace → Prop :=
| onEnter_raises f :
    onEnter h = Some f →
    f ctx = Throw err →
    raises_before_yield s h ctx err ctx [CallOnEnter s ctx]
| execute_raises :
    returns (onEnter h) (λ f, f ctx) →
    execute h ctx = Throw err →
    raises_before_yield s h ctx err ctx
      (called (onEnter h) (CallOnEnter s ctx)
         ++ [CallExecute s ctx (Throw err)])
| onExit_raises result f :
    returns (onEnter h) (λ f, f ctx) →
    execute h ctx = Normal result →
    onExit h = Some f →
    f (event result) (Types.context result) = Throw err →
    raises_before_yield s h ctx err (Types.context result)
      (called (onEnter h) (CallOnEnter s ctx)
         ++ [CallExecute s ctx (Normal result);
             Commit (Types.context result);
             CallOnExit s (event result) (Types.context result)]).

(** What the [catch] clause throws for the failure [err]: [err] itself,
    unless [onError] is present and raises in its turn. *)
Definition rethrown (h : Handler) (err : Err) (ctx : C) : Err :=
  match onError h with
  | Some f => match f err ctx with Normal _ => err | Throw err' => err' end
  | None => err
  end.

(** The calls of [onError] in a trace. *)
Definition onError_calls (tr : Trace) : list (StateId * Err * C) :=
  omap (λ eff, match eff with
               | CallOnError s err ctx => Some (s, err, ctx)
               | _ => None
               end) tr.

(** The consumer leaves the context alone while the run is suspended at
    a [yield]: an action of the script that replaces the context comes
    before the first pull, or after a pull that ended the run. *)
Definition undisturbed (this : FSM) (script : list Action) : Prop :=
  ∀ k a, script !! k = Some a →
    keeps_context a
    ∨ ¬ suspended_at_yield
          (generator (consume (take k script) (start this))).

(** The values of [returned] and of [pending] at the end of a trace. *)
Fixpoint returned_after (returned : option C) (tr : Trace) : option C :=
  match tr with
  | [] => returned
  | CallExecute _ _ (Normal result) :: tr =>
      returned_after (Some (Types.context result)) tr
  | CallExecute _ _ (Throw _) :: tr | CallTransition _ _ _ :: tr =>
      returned_after None tr
  | _ :: tr => returned_after returned tr
  end.

Fixpoint pending_after (pending : option C) (tr : Trace) : option C :=
  match tr with
  | [] => pending
  | eff :: tr =>
      match pending, eff with
      | None, CallExecute _ _ (Normal result) =>
          pending_after (Some (Types.context result)) tr
      | _, _ => pending_after None tr
      end
  end.

(** [reaches_loop g this before this']: a pull on the generator [g] with
    the fields [this] comes to the condition of the loop, at the start of
    the body or after the [transition] of the step it resumes has
    returned; [before] is what the pull has done by then and [this'] are
    the fields. *)
Inductive reaches_loop : Generator → FSM → Trace → FSM → Prop :=
| from_start this : reaches_loop SuspendedStart this [] this
| from_yield s h result this next_state :
    transition h (event result) (context this) = Normal next_state →
    reaches_loop (SuspendedYield s h result) this
      [CallTransition s (event result) (context this)]
      (with_currentState next_state this).

(** No function of a handler fails, whatever it is applied to. *)
Definition never_fails (h : Handler) : Prop :=
  (∀ ctx, ∃ result, execute h ctx = Normal result)
  ∧ (∀ ctx, returns (onEnter h) (λ f, f ctx))
  ∧ (∀ ev ctx, returns (onExit h) (λ f, f ev ctx))
  ∧ (∀ ev ctx, ∃ next_state, transition h ev ctx = Normal next_state).

(** The fields after one whole step of an engine whose handlers do not
    fail: the context [execute] returns, the state [transition] returns
    on the result of [execute]. *)
Definition advance (this : FSM) : FSM :=
  match currentState this with
  | Some s =>
      match states this !! s with
      | Some h =>
          match execute h (context this) with
          | Normal r =>
              match transition h (event r) (Types.context r) with
              | Normal next_state =>
                  with_currentState next_state
                    (with_context (Types.context r) this)
              | Throw _ => this
              end
          | Throw _ => this
          end
      | None => this
      end
  | None => this
  end.

(** A transition path of a state map: from a state with a handler, the
    path goes on with a value the [transition] of that handler returns
    on some event and context; [None] is the terminate signal. *)
Definition transition_path (M : FSMStateMap E C Err)
    (p : nat → option StateId) : Prop :=
  ∀ n s h, p n = Some s → M !! s = Some h →
    ∃ ev ctx, transition h ev ctx = Normal (p (S n)).

(** The path has reached, at [n], a state without entry in the map or
    the terminate signal. *)
Definition unmapped_at (M : FSMStateMap E C Err)
    (p : nat → option StateId) (n : nat) : Prop :=
  match p n with
  | Some s => M !! s = None
  | None => True
  end.

(** The path has reached, at [n], a state for which the lookup in the
    map gives [undefined] -- no entry, and no member inherited from
    [Object.prototype] -- or the terminate signal. *)
Definition undefined_at (M : FSMStateMap E C Err)
    (p : nat → option StateId) (n : nat) : Prop :=
  match p n with
  | Some s => get M s = None
  | None => True
  end.
(** *** Vocabulary of the further properties *)

(** Along a trace, the event passed to [onExit], yielded, and passed to
    [transition] in a step is the event of the result [execute] returned
    in that step; [returned] is that event once [execute] has returned in
    the step under way. *)
Fixpoint events_as_returned (returned : option E) (tr : Trace) : Prop :=
  match tr with
  | [] => True
  | CallExecute _ _ (Normal result) :: tr =>
      events_as_returned (Some (event result)) tr
  | CallExecute _ _ (Throw _) :: tr => events_as_returned None tr
  | CallOnExit _ ev _ :: tr | Yield ev :: tr =>
      returned = Some ev ∧ events_as_returned returned tr
  | CallTransition _ ev _ :: tr =>
      returned = Some ev ∧ events_as_returned None tr
  | _ :: tr => events_as_returned returned tr
  end.

Fixpoint event_after (returned : option E) (tr : Trace) : option E :=
  match tr with
  | [] => returned
  | CallExecute _ _ (Normal result) :: tr =>
      event_after (Some (event result)) tr
  | CallExecute _ _ (Throw _) :: tr | CallTransition _ _ _ :: tr =>
      event_after None tr
  | _ :: tr => event_after returned tr
  end.

(** The events a trace yields, and the events of the results of the
    calls of [execute] that returned. *)
Definition yielded (tr : Trace) : list E :=
  omap (λ eff, match eff with Yield ev => Some ev | _ => None end) tr.

Definition executed (tr : Trace) : list E :=
  omap (λ eff, match eff with
               | CallExecute _ _ (Normal result) => Some (event result)
               | _ => None
               end) tr.





(** Where a run stands in the protocol of a step, as far as its trace
    shows: between two steps; after the [onEnter], the returned
    [execute], the assignment of the context, the [onExit], the [yield]
    and the returned or raising [transition] of the step of a state;
    after an [execute] that raised; after [onError]. *)
Inductive Phase : Type :=
| Between
| Entered (s : StateId)
| Executed (s : StateId)
| Committed (s : StateId)
| Exited (s : StateId)
| Emitted (s : StateId)
| Transited (s : StateId)
| Failed (s : StateId)
| Ended.

(** Two calls of one step are calls for the same state. *)
Definition same_state (s s' : StateId) (ph : Phase) : option Phase :=
  if decide (s = s') then Some ph else None.

(** The phase after an effect, when the protocol allows the effect. *)
Definition after_effect (ph : Phase) (eff : Effect E C Err) : option Phase :=
  match ph, eff with
  | (Between | Transited _), CallOnEnter s _ => Some (Entered s)
  | (Between | Transited _), CallExecute s _ (Normal _) => Some (Executed s)
  | (Between | Transited _), CallExecute s _ (Throw _) => Some (Failed s)
  | Entered s, CallExecute s' _ (Normal _) => same_state s s' (Executed s)
  | Entered s, CallExecute s' _ (Throw _) => same_state s s' (Failed s)
  | Executed s, Commit _ => Some (Committed s)
  | Committed s, CallOnExit s' _ _ => same_state s s' (Exited s)
  | (Committed s | Exited s), Yield _ => Some (Emitted s)
  | Emitted s, CallTransition s' _ _ => same_state s s' (Transited s)
  | (Entered s | Exited s | Transited s | Failed s), CallOnError s' _ _ =>
      same_state s s' Ended
  | _, _ => None
  end.

(** The phase at the end of a trace; [None] when the trace leaves the
    protocol. *)
Definition phase_after (ph : option Phase) (tr : Trace) : option Phase :=
  foldl (λ ph eff, ph ≫= λ ph, after_effect ph eff) ph tr.
End engine.
Arguments Eng : clear implicits.
Arguments Generator : clear implicits.
Arguments IteratorResult : clear implicits.
Arguments Consumed : clear implicits.
Arguments Action : clear implicits.
Arguments Session : clear implicits.
End FSM.

(** ** Machines used as instances *)

Module Examples.
Import Helpers.

(** An event with its type tag, [{ type: string }]. *)
Record Event : Type := { type : string }.

(** Contexts that are numbers, none of which is [null] or [undefined];
    contexts of the type [number | null], with [None] for [null];
    failures that are messages. *)
#[global] Instance nat_nullish : Nullish nat := λ _, false.
#[global] Instance option_nat_nullish : Nullish (option nat) :=
  λ ctx, bool_decide (ctx = None).
#[global] Instance string_type_errors : TypeErrors string :=
  "TypeError: stateHandler.execute is not a function".

Definition produce {C Err} (tag : string)
    : C → Completion Err (FSMStateResult Event C) :=
  λ ctx, Normal {| event := {| type := tag |}; Types.context := ctx |}.

(** Scenario 1 of the specification: [idle] yields [go] and goes to
    [loading], [loading] yields [done] and goes to [success], and the
    transition of [success] terminates; the scenario leaves the [execute]
    and the hooks of [success] open. *)
Definition scenario1 {C Err}
    (success_execute : C → Completion Err (FSMStateResult Event C))
    (success_options : Options Event C Err) : FSMStateMap Event C Err :=
  {[ "idle" := createState (produce "go") (transitionTo "loading") no_options;
     "loading" :=
       createState (produce "done") (transitionTo "success") no_options;
     "success" :=
       createState success_execute finalTransition success_options ]}.

(** Scenario 1 with a [success] that yields [finished]. *)
Definition scenario1_finished : FSMStateMap Event nat string :=
  scenario1 (produce "finished") no_options.

(** The same machine without a handler for [success], as in the Quick
    Start of the package. *)
Definition quick_start {C Err} : FSMStateMap Event C Err :=
  {[ "idle" := createState (produce "go") (transitionTo "loading") no_options;
     "loading" :=
       createState (produce "done") (transitionTo "success") no_options ]}.

(** A machine that counts its steps in the context: [tick] adds one and
    stays in [tick] until the count reaches [3]. *)
Definition ticker : FSMStateHandler Event nat string :=
  createState
    (λ n, Normal {| event := {| type := "tick" |}; Types.context := S n |})
    (conditionalTransition [(λ _ n, bool_decide (n < 3), "tick")] None)
    no_options.

Definition ticking : FSMStateMap Event nat string :=
  {[ "tick" := ticker ]}.

(** Machines with one state [work] where one function raises, and whose
    [onError] returns. *)
Definition on_error_returns : Options Event nat string :=
  {| opt_onEnter := None; opt_onExit := None;
     opt_onError := Some (λ _ _, Normal ()) |}.

Definition raising_execute : FSMStateHandler Event nat string :=
  createState (λ _, Throw "boom") finalTransition on_error_returns.

Definition failing_execute : FSMStateMap Event nat string :=
  {[ "work" := raising_execute ]}.

Definition raising_transition : FSMStateHandler Event nat string :=
  createState
    (λ n, Normal {| event := {| type := "worked" |}; Types.context := S n |})
    (λ _ _, Throw "boom")
    on_error_returns.

Definition failing_transition : FSMStateMap Event nat string :=
  {[ "work" := raising_transition ]}.

Definition raising_onExit : FSMStateHandler Event nat string :=
  createState
    (λ n, Normal {| event := {| type := "worked" |}; Types.context := S n |})
    finalTransition
    {| opt_onEnter := None; opt_onExit := Some (λ _ _, Throw "boom");
       opt_onError := Some (λ _ _, Normal ()) |}.

Definition failing_onExit : FSMStateMap Event nat string :=
  {[ "work" := raising_onExit ]}.




(** A state whose [execute] raises and whose [onError] raises too. *)
Definition raising_onError : FSMStateHandler Event nat string :=
  createState (λ _, Throw "boom") finalTransition
    {| opt_onEnter := None; opt_onExit := None;
       opt_onError := Some (λ _ _, Throw "bang") |}.

Definition failing_onError : FSMStateMap Event nat string :=
  {[ "work" := raising_onError ]}.

(** Scenario 2 of the specification: the only transition of the state is
    a list of conditions none of which matches, with no default. *)
Definition unmatched : FSMStateHandler Event nat string :=
  createState
    (λ n, Normal {| event := {| type := "worked" |}; Types.context := S n |})
    (conditionalTransition [(λ _ n, bool_decide (n = 0), "work")] None)
    no_options.

Definition scenario2 : FSMStateMap Event nat string :=
  {[ "work" := unmatched ]}.

(** A machine whose only state goes to [constructor], a state without
    entry in the map. *)
Definition into_constructor : FSMStateMap Event nat string :=
  {[ "idle" :=
       createState (produce "go") (transitionTo "constructor") no_options ]}.

(** A map with a handler for the empty state. *)
Definition empty_state_machine : FSMStateMap Event nat string :=
  {[ "" := unmatched ]}.

End Examples.

(** * Properties *)

Import FSM Helpers.

Section basic.
Context {E C Err : Type} `{!Nullish C, !TypeErrors Err}.
Implicit Types (this : FSM.t E C Err) (h : FSMStateHandler E C Err)
  (r : FSMStateResult E C) (g : Generator E C Err) (s : StateId)
  (tr : list (Effect E C Err)) (ses : Session E C Err).

Lemma with_context_same this : with_context (FSM.context this) this = this.
Proof. by destruct this. Qed.

Lemma with_currentState_same this :
  with_currentState (currentState this) this = this.
Proof. by destruct this. Qed.

Lemma get_Own {A} (o : gmap string A) name a :
  get o name = Some (Own a) ↔ o !! name = Some a.
Proof.
  unfold get. destruct (o !! name) as [a'|]; [|by destruct (inherited name)].
  split; congruence.
Qed.

Lemma get_Inherited {A} (o : gmap string A) name name' :
  get o name = Some (Inherited name') ↔
  o !! name = None ∧ inherited name = true ∧ name' = name.
Proof.
  unfold get. destruct (o !! name) as [a|]; [by split; [|intros (? & _)]|].
  destruct (inherited name); [|by split; [|intros (_ & ? & _)]].
  split; [by intros [= ->]|by intros (_ & _ & ->)].
Qed.

Lemma get_None {A} (o : gmap string A) name :
  get o name = None ↔ o !! name = None ∧ inherited name = false.
Proof.
  unfold get. destruct (o !! name) as [a|]; [by split; [|intros (? & _)]|].
  destruct (inherited name); [by split; [|intros (_ & ?)]|done].
Qed.

Lemma while_condition_Some this s h :
  while_condition this = Some (s, Own h) ↔
  currentState this = Some s ∧ s ≠ "" ∧ states this !! s = Some h.
Proof.
  unfold while_condition, truthy.
  destruct (currentState this) as [s'|]; simpl.
  - case_bool_decide as Hs; simpl.
    + destruct (get (states this) s') as [[h'|name]|] eqn:Hh; simpl.
      * apply get_Own in Hh.
        split; [by intros [= <- <-]|].
        intros ([= <-] & _ & Hh'). congruence.
      * apply get_Inherited in Hh as (Hh & _).
        split; [done|]. intros ([= <-] & _ & Hh'). congruence.
      * apply get_None in Hh as (Hh & _).
        split; [done|]. intros ([= <-] & _ & Hh'). congruence.
    + split; [done|]. intros ([= <-] & Hne & _). by destruct Hne.
  - split; [done|by intros (? & _)].
Qed.

Lemma while_condition_Inherited this s name :
  while_condition this = Some (s, Inherited name) ↔
  currentState this = Some s ∧ states this !! s = None
  ∧ inherited s = true ∧ name = s.
Proof.
  unfold while_condition, truthy.
  destruct (currentState this) as [s'|]; simpl;
    [|by split; [|intros (? & _)]].
  case_bool_decide as Hs; simpl.
  - destruct (get (states this) s') as [[h'|name']|] eqn:Hh; simpl.
    + apply get_Own in Hh.
      split; [done|]. intros ([= <-] & Hh' & _). congruence.
    + apply get_Inherited in Hh as (Hh & Hin & ->).
      split; [by intros [= <- <-]|]. by intros ([= <-] & _ & _ & ->).
    + apply get_None in Hh as (Hh & Hin).
      split; [done|]. intros ([= <-] & _ & Hin' & _). congruence.
  - split; [done|]. intros ([= <-] & _ & Hin & _). by subst.
Qed.

Lemma terminated_iff this :
  terminated this ↔
  currentState this = None
  ∨ ∃ s, currentState this = Some s
         ∧ (s = "" ∨ (states this !! s = None ∧ inherited s = false)).
Proof.
  unfold terminated, while_condition, truthy.
  destruct (currentState this) as [s|]; simpl; [|by split; [left|]].
  case_bool_decide as Hs; simpl.
  - destruct (get (states this) s) as [[h|name]|] eqn:Hh; simpl.
    + apply get_Own in Hh.
      split; [done|]. intros [[=]|(s' & [= <-] & [->|[Hn _]])]; [done|].
      by rewrite Hh in Hn.
    + apply get_Inherited in Hh as (_ & Hin & _).
      split; [done|]. intros [[=]|(s' & [= <-] & [->|[_ Hn]])]; [done|].
      by rewrite Hin in Hn.
    + apply get_None in Hh.
      split; [|done]. intros _. right. exists s. auto.
  - split; [|done]. intros _. right. exists s. auto.
Qed.

(** The loop of [run] at a state that is no key of the state map but the
    name of a member of [Object.prototype]: the condition holds, and the
    body raises a [TypeError] without calling anything. *)
Lemma run_while_inherited this s name :
  while_condition this = Some (s, Inherited name) →
  run_while this = (Throw type_error, this, []).
Proof. unfold run_while. by intros ->. Qed.

(** The loop of [run] on a terminated machine does nothing. *)
Lemma run_while_terminated this :
  terminated this → run_while this = (Normal None, this, []).
Proof. unfold terminated, run_while. by intros ->. Qed.

(** A step in which nothing fails, up to its [yield]. *)
Lemma run_while_yields this s h r :
  while_condition this = Some (s, Own h) →
  returns (onEnter h) (λ f, f (FSM.context this)) →
  execute h (FSM.context this) = Normal r →
  returns (onExit h) (λ f, f (event r) (Types.context r)) →
  run_while this =
    (Normal (Some (s, h, r)), with_context (Types.context r) this,
     called (onEnter h) (CallOnEnter s (FSM.context this))
       ++ [CallExecute s (FSM.context this) (Normal r);
           Commit (Types.context r)]
       ++ called (onExit h) (CallOnExit s (event r) (Types.context r))
       ++ [Yield (event r)]).
Proof.
  intros Hc Hen Hex Hexit. unfold run_while. rewrite Hc.
  unfold try_catch, try_until_yield, mbind, eng_bind, bind, optional_call,
    call, returns, called in *; simpl.
  destruct (onEnter h) as [f|]; simpl; rewrite ?Hen; simpl;
    rewrite Hex; simpl;
    destruct (onExit h) as [f'|]; simpl; rewrite ?Hexit; done.
Qed.

(** A step that raises before its [yield]: the [catch] clause runs. *)
Lemma run_while_catches this s h err ctx' pre :
  while_condition this = Some (s, Own h) →
  raises_before_yield s h (FSM.context this) err ctx' pre →
  run_while this =
    (Throw (rethrown h err ctx'), with_context ctx' this,
     pre ++ called (onError h) (CallOnError s err ctx')).
Proof.
  intros Hc Hraise. unfold run_while. rewrite Hc.
  unfold try_catch, try_until_yield, catch_clause, mbind, eng_bind, bind,
    optional_call, call, returns, called, rethrown in *; simpl.
  destruct Hraise as [f Hf Hthrow|Hen Hex|r f Hen Hex Hf Hthrow].
  - rewrite Hf; simpl. rewrite Hthrow, with_context_same.
    destruct (onError h) as [f'|]; simpl; [|done]. by destruct (f' _ _).
  - rewrite with_context_same.
    destruct (onEnter h); simpl; rewrite ?Hen; simpl; rewrite Hex;
      (destruct (onError h) as [f'|]; simpl; [|done]); by destruct (f' _ _).
  - rewrite Hf.
    destruct (onEnter h); simpl; rewrite ?Hen; simpl; rewrite Hex; simpl;
      rewrite Hthrow;
      (destruct (onError h) as [f'|]; simpl; [|done]); by destruct (f' _ _).
Qed.

Lemma rethrown_same h err ctx :
  returns (onError h) (λ f, f err ctx) → rethrown h err ctx = err.
Proof.
  unfold returns, rethrown. destruct (onError h); [|done]. by intros ->.
Qed.

Lemma run_while_raises this s h err ctx' pre :
  while_condition this = Some (s, Own h) →
  raises_before_yield s h (FSM.context this) err ctx' pre →
  returns (onError h) (λ f, f err ctx') →
  run_while this =
    (Throw err, with_context ctx' this,
     pre ++ called (onError h) (CallOnError s err ctx')).
Proof.
  intros Hc Hraise Herr.
  by rewrite (run_while_catches _ _ _ _ _ _ Hc Hraise), rethrown_same.
Qed.

(** Every step either reaches its [yield] or raises before it. *)
Lemma step_cases s h ctx :
  (returns (onEnter h) (λ f, f ctx)
   ∧ ∃ r, execute h ctx = Normal r
          ∧ returns (onExit h) (λ f, f (event r) (Types.context r)))
  ∨ ∃ err ctx' pre, raises_before_yield s h ctx err ctx' pre.
Proof.
  destruct (onEnter h) as [f|] eqn:Hen.
  - destruct (f ctx) as [[]|err] eqn:Hf.
    + destruct (execute h ctx) as [r|err] eqn:Hex.
      * destruct (onExit h) as [f'|] eqn:Hexit.
        -- destruct (f' (event r) (Types.context r)) as [[]|err] eqn:Hf'.
           ++ left. split; [done|]. by exists r.
           ++ right. eexists _, _, _.
              eapply onExit_raises; [by rewrite Hen|done..].
        -- left. split; [done|]. by exists r.
      * right. eexists _, _, _.
        eapply execute_raises; [by rewrite Hen|done].
    + right. eexists _, _, _. by eapply onEnter_raises.
  - destruct (execute h ctx) as [r|err] eqn:Hex.
    + destruct (onExit h) as [f'|] eqn:Hexit.
      * destruct (f' (event r) (Types.context r)) as [[]|err] eqn:Hf'.
        -- left. split; [done|]. by exists r.
        -- right. eexists _, _, _.
           eapply onExit_raises; [by rewrite Hen|done..].
      * left. split; [done|]. by exists r.
    + right. eexists _, _, _.
      eapply execute_raises; [by rewrite Hen|done].
Qed.

(** Resuming after a [yield]: when [transition] returns, the result is
    assigned to the current state and the loop goes on. *)
Lemma next_resume_returns s h r this next_state :
  transition h (event r) (FSM.context this) = Normal next_state →
  next (SuspendedYield s h r) this =
    let '(res, this', g', tr) :=
      next SuspendedStart (with_currentState next_state this) in
    (res, this', g', CallTransition s (event r) (FSM.context this) :: tr).
Proof.
  intros Ht. unfold next.
  unfold try_catch, try_after_yield, mbind, eng_bind, bind, call; simpl.
  rewrite Ht; simpl.
  destruct (run_while _) as [[[[[[s' h'] r']|]|err] this'] tr]; done.
Qed.

(** Resuming after a [yield]: when [transition] raises, the [catch]
    clause runs and the current state is not assigned. *)
Lemma next_resume_raises s h r this err :
  transition h (event r) (FSM.context this) = Throw err →
  returns (onError h) (λ f, f err (FSM.context this)) →
  next (SuspendedYield s h r) this =
    (Rejected err, this, Completed,
     CallTransition s (event r) (FSM.context this)
       :: called (onError h) (CallOnError s err (FSM.context this))).
Proof.
  intros Ht Herr. unfold next.
  unfold try_catch, try_after_yield, catch_clause, mbind, eng_bind, bind,
    optional_call, call, returns, called in *; simpl.
  rewrite Ht; simpl.
  destruct (onError h); simpl; rewrite ?Herr; done.
Qed.

(** The fields and the suspended locals when a pull yields: the context
    is the one [execute] returned, the current state is still the state
    of the step and the handler is the one the map gives it. *)
Lemma run_while_suspends this s h r this' tr :
  run_while this = (Normal (Some (s, h, r)), this', tr) →
  while_condition this = Some (s, Own h)
  ∧ execute h (FSM.context this) = Normal r
  ∧ this' = with_context (Types.context r) this.
Proof.
  destruct (while_condition this) as [[s0 [h0|name]]|] eqn:Hc.
  - destruct (step_cases s0 h0 (FSM.context this))
      as [(Hen & r0 & Hex & Hexit)|(err & ctx' & pre & Hraise)].
    + rewrite (run_while_yields _ _ _ _ Hc Hen Hex Hexit).
      by intros [= <- <- <- <- _].
    + by rewrite (run_while_catches _ _ _ _ _ _ Hc Hraise).
  - by rewrite (run_while_inherited _ _ _ Hc).
  - by rewrite run_while_terminated.
Qed.

(** The mutators call no function of a handler. *)
Lemma setState_effects state this : effects_of (setState state) this = [].
Proof. done. Qed.

Lemma updateContext_effects updater this :
  effects_of (updateContext updater) this = [].
Proof. done. Qed.

Lemma reset_effects newContext newState this :
  effects_of (reset newContext newState) this = [].
Proof. done. Qed.

Lemma perform_mutator (a : Action C) ses :
  a ≠ ANext →
  generator (perform a ses) = generator ses
  ∧ received (perform a ses) = received ses
  ∧ observed (perform a ses) = observed ses
  ∧ states (engine (perform a ses)) = states (engine ses).
Proof.
  destruct a; [done|..]; intros _; simpl; by rewrite app_nil_r.
Qed.

Lemma perform_keeps_context (a : Action C) ses :
  a ≠ ANext → keeps_context a →
  FSM.context (engine (perform a ses)) = FSM.context (engine ses).
Proof.
  destruct a as [| | |[ctx|] ?]; try done.
  simpl. unfold fields_after; simpl. intros _ Hnull.
  by destruct (nullish ctx).
Qed.

(** Once the generator has completed, nothing the consumer does makes a
    handler run or an event come out. *)
Lemma consume_completed (script : list (Action C)) ses :
  generator ses = Completed →
  generator (consume script ses) = Completed
  ∧ observed (consume script ses) = observed ses
  ∧ emitted (received (consume script ses)) = emitted (received ses).
Proof.
  revert ses. induction script as [|a script IH]; intros ses Hg; [done|].
  simpl. destruct (IH (perform a ses)) as (Hg' & Hobs & Hrec).
  - destruct a; simpl; [by rewrite Hg|done..].
  - rewrite Hg', Hobs, Hrec. split; [done|].
    destruct a; simpl; rewrite ?app_nil_r; try done.
    rewrite Hg; simpl. rewrite app_nil_r. split; [done|].
    unfold emitted. by rewrite omap_app, app_nil_r.
Qed.

(** More fuel does not change what a consumer gets. *)
Lemma for_await_mono fuel fuel' g this res :
  for_await fuel g this = Some res → fuel ≤ fuel' →
  for_await fuel' g this = Some res.
Proof.
  revert fuel' g this res.
  induction fuel as [|fuel IH]; intros fuel' g this res; [done|].
  intros Hres Hle. destruct fuel' as [|fuel']; [lia|].
  simpl in *. destruct (next g this) as [[[[value| |error] this1] g1] tr];
    [|done..].
  destruct (for_await fuel g1 this1) as [res1|] eqn:Hres1; [|done].
  by rewrite (IH fuel' _ _ _ Hres1); [|lia].
Qed.

Lemma for_await_yielded fuel g this value this1 g1 tr :
  next g this = (Yielded value, this1, g1, tr) →
  for_await (S fuel) g this =
    res ← for_await fuel g1 this1;
    Some {| events := value :: events res; outcome := outcome res;
            final := final res; final_generator := final_generator res;
            effects := tr ++ effects res |}.
Proof. simpl. by intros ->. Qed.

Lemma next_start_yields this s h r :
  while_condition this = Some (s, Own h) →
  returns (onEnter h) (λ f, f (FSM.context this)) →
  execute h (FSM.context this) = Normal r →
  returns (onExit h) (λ f, f (event r) (Types.context r)) →
  next SuspendedStart this =
    (Yielded (event r), with_context (Types.context r) this,
     SuspendedYield s h r,
     called (onEnter h) (CallOnEnter s (FSM.context this))
       ++ [CallExecute s (FSM.context this) (Normal r);
           Commit (Types.context r)]
       ++ called (onExit h) (CallOnExit s (event r) (Types.context r))
       ++ [Yield (event r)]).
Proof.
  intros Hc Hen Hex Hexit. simpl.
  by rewrite (run_while_yields _ _ _ _ Hc Hen Hex Hexit).
Qed.

(** A consumer resumed after a [yield] gets what a consumer started at
    the following state gets, after the call of [transition]. *)
Lemma for_await_resume fuel s h r this next_state :
  transition h (event r) (FSM.context this) = Normal next_state →
  for_await fuel (SuspendedYield s h r) this =
    res ← for_await fuel SuspendedStart (with_currentState next_state this);
    Some {| events := events res; outcome := outcome res;
            final := final res; final_generator := final_generator res;
            effects := CallTransition s (event r) (FSM.context this)
                         :: effects res |}.
Proof.
  intros Ht. destruct fuel as [|fuel]; [done|].
  cbn [for_await]. rewrite (next_resume_returns _ _ _ _ _ Ht).
  destruct (next SuspendedStart _) as [[[[value| |error] this1] g1] tr];
    simpl; [|done..].
  by destruct (for_await fuel g1 this1).
Qed.

(** One whole step of a run in which nothing fails. *)
Lemma for_await_step fuel this s h r next_state res :
  while_condition this = Some (s, Own h) →
  returns (onEnter h) (λ f, f (FSM.context this)) →
  execute h (FSM.context this) = Normal r →
  returns (onExit h) (λ f, f (event r) (Types.context r)) →
  transition h (event r) (Types.context r) = Normal next_state →
  for_await fuel SuspendedStart
    (with_currentState next_state (with_context (Types.context r) this))
    = Some res →
  for_await (S fuel) SuspendedStart this =
    Some {| events := event r :: events res;
            outcome := outcome res;
            final := final res;
            final_generator := final_generator res;
            effects :=
              (called (onEnter h) (CallOnEnter s (FSM.context this))
                 ++ [CallExecute s (FSM.context this) (Normal r);
                     Commit (Types.context r)]
                 ++ called (onExit h)
                      (CallOnExit s (event r) (Types.context r))
                 ++ [Yield (event r)])
              ++ CallTransition s (event r) (Types.context r)
                   :: effects res |}.
Proof.
  intros Hc Hen Hex Hexit Ht Hres.
  rewrite (for_await_yielded _ _ _ _ _ _ _
             (next_start_yields _ _ _ _ Hc Hen Hex Hexit)).
  rewrite (for_await_resume _ _ _ _ _ next_state) by done.
  by rewrite Hres.
Qed.

(** More fuel aside, a consumer gets one result. *)
Lemma for_await_unique fuel1 fuel2 g this res1 res2 :
  for_await fuel1 g this = Some res1 →
  for_await fuel2 g this = Some res2 →
  res1 = res2.
Proof.
  intros H1 H2.
  apply (for_await_mono _ (fuel1 `max` fuel2)) in H1; [|lia].
  apply (for_await_mono _ (fuel1 `max` fuel2)) in H2; [|lia].
  congruence.
Qed.

Lemma next_resume_catches s h r this err :
  transition h (event r) (FSM.context this) = Throw err →
  next (SuspendedYield s h r) this =
    (Rejected (rethrown h err (FSM.context this)), this, Completed,
     CallTransition s (event r) (FSM.context this)
       :: called (onError h) (CallOnError s err (FSM.context this))).
Proof.
  intros Ht. unfold next.
  unfold try_catch, try_after_yield, catch_clause, mbind, eng_bind, bind,
    optional_call, call, returns, called, rethrown in *; simpl.
  rewrite Ht; simpl.
  destruct (onError h) as [f|]; simpl; [|done]. by destruct (f _ _).
Qed.

(** The four ways the loop of [run] goes on from its condition. *)
Lemma run_while_cases this :
  (terminated this ∧ run_while this = (Normal None, this, []))
  ∨ (∃ s,
       while_condition this = Some (s, Inherited s)
       ∧ run_while this = (Throw type_error, this, []))
  ∨ (∃ s h r,
       while_condition this = Some (s, Own h)
       ∧ execute h (FSM.context this) = Normal r
       ∧ run_while this =
           (Normal (Some (s, h, r)), with_context (Types.context r) this,
            called (onEnter h) (CallOnEnter s (FSM.context this))
              ++ [CallExecute s (FSM.context this) (Normal r);
                  Commit (Types.context r)]
              ++ called (onExit h)
                   (CallOnExit s (event r) (Types.context r))
              ++ [Yield (event r)]))
  ∨ (∃ s h err ctx' pre,
       while_condition this = Some (s, Own h)
       ∧ raises_before_yield s h (FSM.context this) err ctx' pre
       ∧ run_while this =
           (Throw (rethrown h err ctx'), with_context ctx' this,
            pre ++ called (onError h) (CallOnError s err ctx'))).
Proof.
  destruct (while_condition this) as [[s [h|name]]|] eqn:Hc.
  - destruct (step_cases s h (FSM.context this))
      as [(Hen & r & Hex & Hexit)|(err & ctx' & pre & Hraise)].
    + right; right; left. exists s, h, r.
      by rewrite (run_while_yields _ _ _ _ Hc Hen Hex Hexit).
    + right; right; right. exists s, h, err, ctx', pre.
      by rewrite (run_while_catches _ _ _ _ _ _ Hc Hraise).
  - right; left. exists s.
    pose proof Hc as (_ & _ & _ & ->)%while_condition_Inherited.
    split; [done|]. by apply (run_while_inherited _ _ _ Hc).
  - left. split; [done|]. by apply run_while_terminated.
Qed.

(** A run whose first step raises before its [yield]. *)
Lemma for_await_step_raises fuel this s h err ctx' pre :
  while_condition this = Some (s, Own h) →
  raises_before_yield s h (FSM.context this) err ctx' pre →
  for_await (S fuel) SuspendedStart this =
    Some {| events := [];
            outcome := Throw (rethrown h err ctx');
            final := with_context ctx' this;
            final_generator := Completed;
            effects := pre ++ called (onError h) (CallOnError s err ctx') |}.
Proof.
  intros Hc Hraise. simpl.
  by rewrite (run_while_catches _ _ _ _ _ _ Hc Hraise).
Qed.

Lemma next_reaches_loop g this0 before this :
  reaches_loop g this0 before this →
  next g this0 =
    let '(res, this', g', tr) := settle (run_while this) in
    (res, this', g', before ++ tr).
Proof.
  intros [this1|s h r this1 next_state Ht].
  - simpl. by destruct (settle _) as [[[res this'] g'] tr].
  - rewrite (next_resume_returns _ _ _ _ _ Ht). simpl.
    by destruct (settle _) as [[[res this'] g'] tr].
Qed.

Lemma perform_next ses res this g tr :
  next (generator ses) (engine ses) = (res, this, g, tr) →
  perform ANext ses =
    {| engine := this; generator := g;
       received := received ses ++ [res];
       observed := observed ses ++ tr |}.
Proof. unfold perform. by intros ->. Qed.

Lemma onError_calls_app tr1 tr2 :
  onError_calls (tr1 ++ tr2) = onError_calls tr1 ++ onError_calls tr2.
Proof. apply omap_app. Qed.

Lemma reaches_loop_no_onError g this0 before this :
  reaches_loop g this0 before this → onError_calls before = [].
Proof. by intros []. Qed.

Lemma raises_before_yield_no_onError s h ctx err ctx' pre :
  raises_before_yield s h ctx err ctx' pre → onError_calls pre = [].
Proof.
  intros []; rewrite ?onError_calls_app; unfold called;
    by destruct (onEnter h).
Qed.
End basic.

(** ** Failures *)

Section failures.
Context {E C Err : Type} `{!Nullish C, !TypeErrors Err}.
Implicit Types (this : FSM.t E C Err) (h : FSMStateHandler E C Err)
  (r : FSMStateResult E C) (g : Generator E C Err) (s : StateId)
  (tr : list (Effect E C Err)) (ses : Session E C Err)
  (script : list (Action C)).

(** C2, as amended.  When a pull comes to the step of the state [s]
    with handler [h] and [onEnter], [execute] or [onExit] of [h] raises
    [err] there, the pull records, after the failing call, one call of
    the [onError] of [h] (when [h] has one) with [err] and the context
    field of that point -- the context the step started with if
    [onEnter] or [execute] raised, the context of the result of
    [execute] if [onExit] raised -- and no other call of an [onError];
    the pull is rejected: with [err] when [onError] returns or is
    absent, with the failure of [onError] when [onError] raises; the
    generator has completed, so whatever the consumer does afterwards,
    no function of a handler is called and no event comes out in that
    run. *)
Theorem failure_before_yield_routed_to_onError
    ses before this s h err ctx' pre script :
  reaches_loop (generator ses) (engine ses) before this →
  while_condition this = Some (s, Own h) →
  raises_before_yield s h (FSM.context this) err ctx' pre →
  let failed := perform ANext ses in
  received failed = received ses ++ [Rejected (rethrown h err ctx')]
  ∧ (returns (onError h) (λ f, f err ctx') → rethrown h err ctx' = err)
  ∧ (∀ f err', onError h = Some f → f err ctx' = Throw err' →
       rethrown h err ctx' = err')
  ∧ observed failed =
      observed ses ++ before ++ pre
        ++ called (onError h) (CallOnError s err ctx')
  ∧ onError_calls (before ++ pre) = []
  ∧ engine failed = with_context ctx' this
  ∧ generator failed = Completed
  ∧ observed (consume script failed) = observed failed
  ∧ emitted (received (consume script failed)) = emitted (received failed).
Proof.
  intros Hreach Hc Hraise failed.
  assert (next (generator ses) (engine ses) =
            (Rejected (rethrown h err ctx'), with_context ctx' this,
             Completed,
             before ++ pre ++ called (onError h) (CallOnError s err ctx')))
    as Hnext.
  { rewrite (next_reaches_loop _ _ _ _ Hreach).
    by rewrite (run_while_catches _ _ _ _ _ _ Hc Hraise). }
  assert (generator failed = Completed) as Hg.
  { unfold failed. by rewrite (perform_next _ _ _ _ _ Hnext). }
  destruct (consume_completed script failed Hg) as (_ & Hobs & Hrec).
  split; [|split; [|split; [|repeat split]]]; try done.
  - unfold failed. by rewrite (perform_next _ _ _ _ _ Hnext).
  - apply rethrown_same.
  - intros f err' Hf Hthrow. unfold rethrown. by rewrite Hf, Hthrow.
  - unfold failed. by rewrite (perform_next _ _ _ _ _ Hnext).
  - rewrite onError_calls_app.
    by rewrite (reaches_loop_no_onError _ _ _ _ Hreach),
      (raises_before_yield_no_onError _ _ _ _ _ _ Hraise).
  - unfold failed. by rewrite (perform_next _ _ _ _ _ Hnext).
Qed.
End failures.

(** ** Runs driven by a consumer *)

Section sessions.
Context {E C Err : Type} `{!Nullish C, !TypeErrors Err}.
Implicit Types (this : FSM.t E C Err) (h : FSMStateHandler E C Err)
  (r : FSMStateResult E C) (g : Generator E C Err) (s : StateId)
  (tr : list (Effect E C Err)) (ses : Session E C Err)
  (script : list (Action C)) (returned pending : option C).

Lemma pull_or_mutator (a : Action C) : a = ANext ∨ a ≠ ANext.
Proof. destruct a; auto. Qed.

Lemma consume_snoc script a ses :
  consume (script ++ [a]) ses = perform a (consume script ses).
Proof. unfold consume. by rewrite foldl_app. Qed.

Lemma contexts_as_returned_app returned tr1 tr2 :
  contexts_as_returned returned (tr1 ++ tr2) ↔
  contexts_as_returned returned tr1
  ∧ contexts_as_returned (returned_after returned tr1) tr2.
Proof.
  revert returned. induction tr1 as [|eff tr1 IH]; intros returned; simpl.
  - tauto.
  - destruct eff as [| ? ? []| | | | |]; rewrite ?IH; tauto.
Qed.

Lemma onExit_contexts_as_returned_app returned tr1 tr2 :
  onExit_contexts_as_returned returned (tr1 ++ tr2) ↔
  onExit_contexts_as_returned returned tr1
  ∧ onExit_contexts_as_returned (returned_after returned tr1) tr2.
Proof.
  revert returned. induction tr1 as [|eff tr1 IH]; intros returned; simpl.
  - tauto.
  - destruct eff as [| ? ? []| | | | |]; rewrite ?IH; tauto.
Qed.

Lemma returned_after_app returned tr1 tr2 :
  returned_after returned (tr1 ++ tr2) =
  returned_after (returned_after returned tr1) tr2.
Proof.
  revert returned. induction tr1 as [|eff tr1 IH]; intros returned; simpl.
  - done.
  - by destruct eff as [| ? ? []| | | | |].
Qed.

Lemma commits_follow_execute_app pending tr1 tr2 :
  commits_follow_execute pending (tr1 ++ tr2) ↔
  commits_follow_execute pending tr1
  ∧ commits_follow_execute (pending_after pending tr1) tr2.
Proof.
  revert pending. induction tr1 as [|eff tr1 IH]; intros pending; simpl.
  - tauto.
  - destruct pending, eff as [| ? ? []| | | | |]; rewrite ?IH; tauto.
Qed.

Lemma pending_after_app pending tr1 tr2 :
  pending_after pending (tr1 ++ tr2) =
  pending_after (pending_after pending tr1) tr2.
Proof.
  revert pending. induction tr1 as [|eff tr1 IH]; intros pending; simpl.
  - done.
  - by destruct pending, eff as [| ? ? []| | | | |].
Qed.

(** What one pull does to the fields, and where it leaves them when it
    yields. *)
Lemma run_while_fields this :
  let '(res, this', tr) := run_while this in
  states this' = states this
  ∧ ∀ s h r, res = Normal (Some (s, h, r)) →
      states this !! s = Some h
      ∧ FSM.context this' = Types.context r
      ∧ currentState this' = Some s.
Proof.
  destruct (run_while_cases this)
    as [[_ ->]|[(s & _ & ->)|[(s & h & r & Hc & _ & ->)
                             |(s & h & ? & ? & ? & _ & _ & ->)]]];
    (split; [done|]); intros s' h' r' [=]; subst.
  by apply while_condition_Some in Hc as (? & _ & ?).
Qed.

Lemma next_fields g this :
  let '(res, this', g', tr) := next g this in
  states this' = states this
  ∧ ∀ s h r, g' = SuspendedYield s h r →
      states this !! s = Some h
      ∧ FSM.context this' = Types.context r
      ∧ currentState this' = Some s
      ∧ res = Yielded (event r).
Proof.
  assert (∀ this0, let '(res, this', g', tr) := settle (run_while this0) in
            states this' = states this0
            ∧ ∀ s h r, g' = SuspendedYield s h r →
                states this0 !! s = Some h
                ∧ FSM.context this' = Types.context r
                ∧ currentState this' = Some s
                ∧ res = Yielded (event r)) as Hloop.
  { intros this0. pose proof (run_while_fields this0) as Hf.
    destruct (run_while this0) as [[[[[[s0 h0] r0]|]|err] this'] tr];
      simpl; destruct Hf as [Hst Hy]; (split; [done|]);
      intros s h r [=]; subst.
    destruct (Hy s h r eq_refl) as (? & ? & ?). done. }
  destruct g as [|s0 h0 r0|].
  - apply Hloop.
  - destruct (transition h0 (event r0) (FSM.context this))
      as [next_state|err] eqn:Ht.
    + rewrite (next_resume_returns _ _ _ _ _ Ht). simpl.
      pose proof (Hloop (with_currentState next_state this)) as Hl.
      by destruct (settle _) as [[[res this'] g'] tr].
    + rewrite (next_resume_catches _ _ _ _ _ Ht). by split.
  - by split.
Qed.

(** The states map of an engine never changes, and a generator suspended
    at a [yield] holds the handler the map gives the state of the
    step. *)
Lemma session_states this0 script :
  let ses := consume script (start this0) in
  states (engine ses) = states this0
  ∧ ∀ s h r, generator ses = SuspendedYield s h r →
      states this0 !! s = Some h.
Proof.
  induction script as [|a script IH] using rev_ind; [done|].
  rewrite consume_snoc. simpl in *. destruct IH as [Hst Hg].
  set (ses := consume script (start this0)) in *.
  destruct (pull_or_mutator a) as [->|Ha].
  - pose proof (next_fields (generator ses) (engine ses)) as Hn.
    destruct (next (generator ses) (engine ses))
      as [[[res this'] g'] tr] eqn:Hnext.
    rewrite (perform_next _ _ _ _ _ Hnext); simpl.
    destruct Hn as [Hst' Hy]. split; [congruence|].
    intros s h r ->. destruct (Hy s h r eq_refl) as (? & _). congruence.
  - destruct (perform_mutator a ses Ha) as (-> & _ & _ & ->). done.
Qed.

(** The trace of the loop, from its condition to the next suspension. *)
Lemma run_while_contexts returned this :
  let '(res, this', tr) := run_while this in
  contexts_as_returned returned tr
  ∧ ∀ s h r, res = Normal (Some (s, h, r)) →
      returned_after returned tr = Some (Types.context r).
Proof.
  destruct (run_while_cases this)
    as [[_ ->]|[(s & _ & ->)
               |[(s & h & r & _ & _ & ->)
                |(s & h & err & ctx' & pre & _ & Hraise & ->)]]].
  - by split.
  - by split.
  - unfold called. split.
    + destruct (onEnter h), (onExit h); simpl; eauto.
    + intros s' h' r' [= _ _ <-]. by destruct (onEnter h), (onExit h).
  - split; [|done]. unfold called.
    destruct Hraise as [f Hf _| |r f]; destruct (onEnter h), (onError h);
      simpl; eauto.
Qed.

Lemma run_while_onExit_contexts returned this :
  let '(res, this', tr) := run_while this in
  onExit_contexts_as_returned returned tr
  ∧ ∀ s h r, res = Normal (Some (s, h, r)) →
      returned_after returned tr = Some (Types.context r).
Proof.
  destruct (run_while_cases this)
    as [[_ ->]|[(s & _ & ->)
               |[(s & h & r & _ & _ & ->)
                |(s & h & err & ctx' & pre & _ & Hraise & ->)]]].
  - by split.
  - by split.
  - unfold called. split.
    + destruct (onEnter h), (onExit h); simpl; eauto.
    + intros s' h' r' [= _ _ <-]. by destruct (onEnter h), (onExit h).
  - split; [|done]. unfold called.
    destruct Hraise as [f Hf _| |r f]; destruct (onEnter h), (onError h);
      simpl; eauto.
Qed.

Lemma run_while_commits this :
  let '(res, this', tr) := run_while this in
  commits_follow_execute None tr ∧ pending_after None tr = None.
Proof.
  destruct (run_while_cases this)
    as [[_ ->]|[(s & _ & ->)
               |[(s & h & r & _ & _ & ->)
                |(s & h & err & ctx' & pre & _ & Hraise & ->)]]].
  - by split.
  - by split.
  - unfold called. by destruct (onEnter h), (onExit h).
  - unfold called.
    destruct Hraise as [f Hf _| |r f]; by destruct (onEnter h), (onError h).
Qed.

Lemma next_contexts g this returned :
  (∀ s h r, g = SuspendedYield s h r →
     returned = Some (Types.context r)
     ∧ FSM.context this = Types.context r) →
  let '(res, this', g', tr) := next g this in
  contexts_as_returned returned tr
  ∧ ∀ s h r, g' = SuspendedYield s h r →
      returned_after returned tr = Some (Types.context r).
Proof.
  intros Hg.
  assert (∀ returned0 this0,
            let '(res, this', g', tr) := settle (run_while this0) in
            contexts_as_returned returned0 tr
            ∧ ∀ s h r, g' = SuspendedYield s h r →
                returned_after returned0 tr = Some (Types.context r))
    as Hloop.
  { intros returned0 this0.
    pose proof (run_while_contexts returned0 this0) as Hc.
    destruct (run_while this0) as [[[[[[s0 h0] r0]|]|err] this'] tr];
      simpl; destruct Hc as [Hc Hy]; (split; [done|]);
      intros s h r [=]; subst.
    by apply (Hy s h r). }
  destruct g as [|s0 h0 r0|].
  - apply Hloop.
  - destruct (Hg s0 h0 r0 eq_refl) as [-> Hctx].
    destruct (transition h0 (event r0) (FSM.context this))
      as [next_state|err] eqn:Ht.
    + rewrite (next_resume_returns _ _ _ _ _ Ht). simpl.
      pose proof (Hloop None (with_currentState next_state this)) as Hl.
      destruct (settle _) as [[[res this'] g'] tr]. simpl.
      rewrite Hctx. by destruct Hl.
    + rewrite (next_resume_catches _ _ _ _ _ Ht). simpl.
      rewrite Hctx. unfold called. by destruct (onError h0).
  - by split.
Qed.

Lemma next_commits g this :
  let '(res, this', g', tr) := next g this in
  commits_follow_execute None tr ∧ pending_after None tr = None.
Proof.
  assert (∀ this0,
            let '(res, this', g', tr) := settle (run_while this0) in
            commits_follow_execute None tr ∧ pending_after None tr = None)
    as Hloop.
  { intros this0. pose proof (run_while_commits this0) as Hc.
    by destruct (run_while this0) as [[[[[[s0 h0] r0]|]|err] this'] tr]. }
  destruct g as [|s0 h0 r0|].
  - apply Hloop.
  - destruct (transition h0 (event r0) (FSM.context this))
      as [next_state|err] eqn:Ht.
    + rewrite (next_resume_returns _ _ _ _ _ Ht). simpl.
      pose proof (Hloop (with_currentState next_state this)) as Hl.
      by destruct (settle _) as [[[res this'] g'] tr].
    + rewrite (next_resume_catches _ _ _ _ _ Ht). simpl.
      unfold called. by destruct (onError h0).
  - by split.
Qed.

Lemma undisturbed_snoc this0 script a :
  undisturbed this0 (script ++ [a]) →
  undisturbed this0 script
  ∧ (keeps_context a
     ∨ ¬ suspended_at_yield (generator (consume script (start this0)))).
Proof.
  intros Hu. split.
  - intros k a' Hk.
    pose proof (lookup_lt_Some _ _ _ Hk) as Hlt.
    destruct (Hu k a') as [?|Hn]; [by rewrite lookup_app_l|by left|].
    right. by rewrite take_app_le in Hn by lia.
  - destruct (Hu (length script) a) as [?|Hn].
    + rewrite lookup_app_r by lia. by rewrite Nat.sub_diag.
    + by left.
    + right. by rewrite take_app_le, firstn_all in Hn by lia.
Qed.

(** While the consumer leaves the context alone at the yields, the trace
    of the session passes the returned contexts on, and a generator
    suspended at a [yield] finds in the context field the context its
    [execute] returned. *)
Lemma session_contexts this0 script :
  undisturbed this0 script →
  let ses := consume script (start this0) in
  contexts_as_returned None (observed ses)
  ∧ ∀ s h r, generator ses = SuspendedYield s h r →
      returned_after None (observed ses) = Some (Types.context r)
      ∧ FSM.context (engine ses) = Types.context r.
Proof.
  induction script as [|a script IH] using rev_ind; [done|].
  intros [Hu Ha]%undisturbed_snoc.
  rewrite consume_snoc. simpl in *. destruct (IH Hu) as [Hobs Hg].
  set (ses := consume script (start this0)) in *.
  destruct (pull_or_mutator a) as [->|Hmut].
  - pose proof (next_fields (generator ses) (engine ses)) as Hf.
    pose proof (next_contexts (generator ses) (engine ses)
                  (returned_after None (observed ses)) Hg) as Hn.
    destruct (next (generator ses) (engine ses))
      as [[[res this'] g'] tr] eqn:Hnext.
    rewrite (perform_next _ _ _ _ _ Hnext); simpl.
    destruct Hf as [_ Hf], Hn as [Htr Hy].
    rewrite contexts_as_returned_app, returned_after_app.
    split; [done|]. intros s h r ->.
    destruct (Hf s h r eq_refl) as (_ & ? & _). split; [|done].
    by apply (Hy s h r).
  - destruct (perform_mutator a ses Hmut) as (Hgen & _ & -> & _).
    split; [done|]. rewrite Hgen. intros s h r Hs.
    destruct Ha as [Hkeep|Hn].
    + rewrite (perform_keeps_context a ses Hmut Hkeep). by apply (Hg s h r).
    + destruct Hn. by rewrite Hs.
Qed.

Lemma session_commits this0 script :
  let ses := consume script (start this0) in
  commits_follow_execute None (observed ses)
  ∧ pending_after None (observed ses) = None.
Proof.
  induction script as [|a script IH] using rev_ind; [done|].
  rewrite consume_snoc. simpl in *. destruct IH as [Hobs Hp].
  set (ses := consume script (start this0)) in *.
  destruct (pull_or_mutator a) as [->|Hmut].
  - pose proof (next_commits (generator ses) (engine ses)) as Hn.
    destruct (next (generator ses) (engine ses))
      as [[[res this'] g'] tr] eqn:Hnext.
    rewrite (perform_next _ _ _ _ _ Hnext); simpl.
    rewrite commits_follow_execute_app, pending_after_app, Hp. by destruct Hn.
  - by destruct (perform_mutator a ses Hmut) as (_ & _ & -> & _).
Qed.

Lemma next_onExit_contexts g this returned :
  (∀ s h r, g = SuspendedYield s h r → returned = Some (Types.context r)) →
  let '(res, this', g', tr) := next g this in
  onExit_contexts_as_returned returned tr
  ∧ ∀ s h r, g' = SuspendedYield s h r →
      returned_after returned tr = Some (Types.context r).
Proof.
  intros Hg.
  assert (∀ returned0 this0,
            let '(res, this', g', tr) := settle (run_while this0) in
            onExit_contexts_as_returned returned0 tr
            ∧ ∀ s h r, g' = SuspendedYield s h r →
                returned_after returned0 tr = Some (Types.context r))
    as Hloop.
  { intros returned0 this0.
    pose proof (run_while_onExit_contexts returned0 this0) as Hc.
    destruct (run_while this0) as [[[[[[s0 h0] r0]|]|err] this'] tr];
      simpl; destruct Hc as [Hc Hy]; (split; [done|]);
      intros s h r [=]; subst.
    by apply (Hy s h r). }
  destruct g as [|s0 h0 r0|].
  - apply Hloop.
  - destruct (transition h0 (event r0) (FSM.context this))
      as [next_state|err] eqn:Ht.
    + rewrite (next_resume_returns _ _ _ _ _ Ht). simpl.
      pose proof (Hloop None (with_currentState next_state this)) as Hl.
      by destruct (settle _) as [[[res this'] g'] tr].
    + rewrite (next_resume_catches _ _ _ _ _ Ht). simpl.
      unfold called. by destruct (onError h0).
  - by split.
Qed.

(** Whatever the consumer does, the trace of the session passes the
    returned contexts on to [onExit], and a generator suspended at a
    [yield] holds the result whose context [execute] returned last. *)
Lemma session_onExit_contexts this0 script :
  let ses := consume script (start this0) in
  onExit_contexts_as_returned None (observed ses)
  ∧ ∀ s h r, generator ses = SuspendedYield s h r →
      returned_after None (observed ses) = Some (Types.context r).
Proof.
  induction script as [|a script IH] using rev_ind; [done|].
  rewrite consume_snoc. simpl in *. destruct IH as [Hobs Hg].
  set (ses := consume script (start this0)) in *.
  destruct (pull_or_mutator a) as [->|Hmut].
  - pose proof (next_onExit_contexts (generator ses) (engine ses)
                  (returned_after None (observed ses)) Hg) as Hn.
    destruct (next (generator ses) (engine ses))
      as [[[res this'] g'] tr] eqn:Hnext.
    rewrite (perform_next _ _ _ _ _ Hnext); simpl.
    destruct Hn as [Htr Hy].
    rewrite onExit_contexts_as_returned_app, returned_after_app.
    split; [done|]. intros s h r ->. by apply (Hy s h r).
  - destruct (perform_mutator a ses Hmut) as (Hgen & _ & -> & _).
    split; [done|]. by rewrite Hgen.
Qed.

(** The fields when a pull has yielded: the context is the one [execute]
    returned, the current state is the state of the step, whose handler
    the generator holds. *)
Lemma pull_fields ses s h r :
  generator (perform ANext ses) = SuspendedYield s h r →
  FSM.context (engine (perform ANext ses)) = Types.context r
  ∧ currentState (engine (perform ANext ses)) = Some s
  ∧ states (engine ses) !! s = Some h.
Proof.
  pose proof (next_fields (generator ses) (engine ses)) as Hf.
  destruct (next (generator ses) (engine ses))
    as [[[res this'] g'] tr] eqn:Hnext.
  rewrite (perform_next _ _ _ _ _ Hnext); simpl.
  intros ->. destruct Hf as [_ Hf].
  by destruct (Hf s h r eq_refl) as (? & ? & ? & _).
Qed.

(** Calls of the mutators between two pulls. *)
Lemma consume_mutators (acts : list (Action C)) ses :
  Forall (λ a, a ≠ ANext) acts →
  generator (consume acts ses) = generator ses
  ∧ received (consume acts ses) = received ses
  ∧ observed (consume acts ses) = observed ses
  ∧ states (engine (consume acts ses)) = states (engine ses).
Proof.
  induction acts as [|a acts IH] using rev_ind; [done|].
  intros [Hacts Ha%Forall_inv]%Forall_app.
  rewrite consume_snoc.
  destruct (perform_mutator a (consume acts ses) Ha) as (-> & -> & -> & ->).
  by apply IH.
Qed.

Lemma consume_keeps_context (acts : list (Action C)) ses :
  Forall (λ a, a ≠ ANext) acts →
  Forall (λ a, keeps_context a) acts →
  FSM.context (engine (consume acts ses)) = FSM.context (engine ses).
Proof.
  induction acts as [|a acts IH] using rev_ind; [done|].
  intros [Hacts Ha%Forall_inv]%Forall_app
         [Hkeeps Hkeep%Forall_inv]%Forall_app.
  rewrite consume_snoc, (perform_keeps_context a _ Ha Hkeep). by apply IH.
Qed.

Lemma perform_keeps_state (a : Action C) ses :
  a ≠ ANext → keeps_state a →
  currentState (engine (perform a ses)) = currentState (engine ses).
Proof. by destruct a as [| | |? []]. Qed.

Lemma consume_keeps_state (acts : list (Action C)) ses :
  Forall (λ a, a ≠ ANext) acts →
  Forall (λ a, keeps_state a) acts →
  currentState (engine (consume acts ses)) = currentState (engine ses).
Proof.
  induction acts as [|a acts IH] using rev_ind; [done|].
  intros [Hacts Ha%Forall_inv]%Forall_app
         [Hkeeps Hkeep%Forall_inv]%Forall_app.
  rewrite consume_snoc, (perform_keeps_state a _ Ha Hkeep). by apply IH.
Qed.

(** A pull on a generator suspended at a [yield] starts with the call of
    [transition], on the event of the suspended step and the context
    field as it is then. *)
Lemma perform_resume ses s h r :
  generator ses = SuspendedYield s h r →
  ∃ tr, observed (perform ANext ses) =
          observed ses
            ++ CallTransition s (event r) (FSM.context (engine ses)) :: tr.
Proof.
  intros Hg.
  destruct (transition h (event r) (FSM.context (engine ses)))
    as [next_state|err] eqn:Ht.
  - pose proof (next_resume_returns s _ _ _ _ Ht) as Hnext.
    rewrite <- Hg in Hnext.
    destruct (next SuspendedStart _) as [[[res this'] g'] tr].
    rewrite (perform_next _ _ _ _ _ Hnext); simpl. by eexists.
  - pose proof (next_resume_catches s _ _ _ _ Ht) as Hnext.
    rewrite <- Hg in Hnext.
    rewrite (perform_next _ _ _ _ _ Hnext); simpl. by eexists.
Qed.

(** C1, as amended.  Take any run, whatever the consumer does, and any
    point [ses] of it.  The context passed to [onExit] in a step is the
    context of the result [execute] returned in that step, and an event
    is yielded only once [execute] has returned; the engine assigns the
    context of the result to the context field immediately after every
    [execute] that returns, and at no other point.  When the next pull
    yields the event of a step, with result [r], the context [execute]
    returned last is that of [r]; and when the consumer then calls
    mutators and pulls again, that pull starts with the call of the
    [transition] of the step on the context field as it is then, which
    is the context of [r] when the mutators have left the context as it
    was.  So, in a run during which the consumer never replaces the
    context at a [yield], every context passed to [onExit] and to
    [transition] is the one [execute] returned in the step. *)
Theorem context_of_step_is_the_one_execute_returned this0 script :
  let ses := consume script (start this0) in
  onExit_contexts_as_returned None (observed ses)
  ∧ (commits_follow_execute None (observed ses)
     ∧ pending_after None (observed ses) = None)
  ∧ (∀ acts s h r,
       generator (perform ANext ses) = SuspendedYield s h r →
       Forall (λ a, a ≠ ANext) acts →
       let resumed := consume acts (perform ANext ses) in
       returned_after None (observed (perform ANext ses))
         = Some (Types.context r)
       ∧ (∃ tr,
            observed (perform ANext resumed) =
              observed (perform ANext ses)
                ++ CallTransition s (event r) (FSM.context (engine resumed))
                :: tr)
       ∧ (Forall (λ a, keeps_context a) acts →
          FSM.context (engine resumed) = Types.context r))
  ∧ (undisturbed this0 script → contexts_as_returned None (observed ses)).
Proof.
  intros ses. split; [apply session_onExit_contexts|].
  split; [apply session_commits|]. split.
  - intros acts s h r Hg Hacts resumed. split; [|split].
    + pose proof (session_onExit_contexts this0 (script ++ [ANext])) as Hs.
      rewrite consume_snoc in Hs. by apply (proj2 Hs s h r).
    + destruct (consume_mutators acts (perform ANext ses) Hacts)
        as (Hgen & _ & Hobs & _).
      destruct (perform_resume resumed s h r) as [tr Htr];
        [unfold resumed; congruence|].
      exists tr. rewrite Htr. unfold resumed at 1. by rewrite Hobs.
    + intros Hkeep. destruct (pull_fields ses s h r Hg) as (Hctx & _).
      unfold resumed.
      by rewrite (consume_keeps_context _ _ Hacts Hkeep), Hctx.
  - intros Hu. by apply session_contexts.
Qed.

(** C10, as amended.  Take any run and any pull of it that yields the
    event of a step of the state [s], with handler [h] and result [r];
    then the context field is the context of [r], the committed context
    of the step, and the current state is [s].  Let the consumer call
    mutators and pull again, and let the [transition] of [h] raise [err]
    on the event and the context field as it is then.  That pull records
    the call of [transition] and then one call of the [onError] of [h]
    (when [h] has one) with [err] and that context field, and nothing
    else; it is rejected with [err] when [onError] returns, with the
    failure of [onError] when [onError] raises; it leaves the fields as
    the consumer left them and the run is over.  So [onError] receives
    the committed context of the step when the mutators kept the context,
    and the current state is still [s] when they kept the state. *)
Theorem transition_failure_routed_to_onError
    this0 script acts s h r err script' :
  let at_yield := perform ANext (consume script (start this0)) in
  let resumed := consume acts at_yield in
  let failed := perform ANext resumed in
  let ctx := FSM.context (engine resumed) in
  generator at_yield = SuspendedYield s h r →
  Forall (λ a, a ≠ ANext) acts →
  transition h (event r) ctx = Throw err →
  (states this0 !! s = Some h
   ∧ FSM.context (engine at_yield) = Types.context r
   ∧ currentState (engine at_yield) = Some s
   ∧ returned_after None (observed at_yield) = Some (Types.context r))
  ∧ observed failed =
      observed at_yield
        ++ CallTransition s (event r) ctx
        :: called (onError h) (CallOnError s err ctx)
  ∧ received failed = received at_yield ++ [Rejected (rethrown h err ctx)]
  ∧ (returns (onError h) (λ f, f err ctx) → rethrown h err ctx = err)
  ∧ (∀ f err', onError h = Some f → f err ctx = Throw err' →
       rethrown h err ctx = err')
  ∧ engine failed = engine resumed
  ∧ generator failed = Completed
  ∧ observed (consume script' failed) = observed failed
  ∧ (Forall (λ a, keeps_context a) acts → ctx = Types.context r)
  ∧ (Forall (λ a, keeps_state a) acts →
     currentState (engine failed) = Some s).
Proof.
  intros at_yield resumed failed ctx Hg Hacts Ht.
  destruct (pull_fields _ s h r Hg) as (Hctx & Hcur & Hh).
  destruct (consume_mutators acts at_yield Hacts)
    as (Hgen & Hrec & Hobs & _).
  pose proof (next_resume_catches s _ _ _ _ Ht) as Hnext.
  rewrite <- Hg, <- Hgen in Hnext.
  assert (generator failed = Completed) as Hdone.
  { unfold failed. by rewrite (perform_next _ _ _ _ _ Hnext). }
  destruct (consume_completed script' failed Hdone) as (_ & Hobs' & _).
  split; [|repeat split].
  - repeat split; try done.
    + by rewrite <- (proj1 (session_states this0 script)).
    + pose proof (session_onExit_contexts this0 (script ++ [ANext])) as Hs.
      rewrite consume_snoc in Hs. by apply (proj2 Hs s h r).
  - unfold failed. rewrite (perform_next _ _ _ _ _ Hnext); simpl.
    by rewrite <- Hobs.
  - unfold failed. rewrite (perform_next _ _ _ _ _ Hnext); simpl.
    by rewrite <- Hrec.
  - apply rethrown_same.
  - intros f err' Hf Hthrow. unfold rethrown. by rewrite Hf, Hthrow.
  - unfold failed. by rewrite (perform_next _ _ _ _ _ Hnext).
  - done.
  - done.
  - intros Hkeep. unfold ctx, resumed.
    by rewrite (consume_keeps_context _ _ Hacts Hkeep).
  - intros Hkeep. unfold failed.
    rewrite (perform_next _ _ _ _ _ Hnext); simpl. unfold resumed.
    by rewrite (consume_keeps_state _ _ Hacts Hkeep).
Qed.
End sessions.

(** ** The accessors, the mutators and the construction *)

Section methods.
Context {E C Err : Type} `{!Nullish C, !TypeErrors Err}.
Implicit Types (this : FSM.t E C Err) (ses : Session E C Err)
  (script : list (Action C)).

(** A run on a terminated machine ends at the first pull: no event, no
    call, no failure, the fields as they were. *)
Lemma for_await_terminated this fuel :
  terminated this →
  for_await (S fuel) SuspendedStart this =
    Some {| events := []; outcome := Normal (); final := this;
            final_generator := Completed; effects := [] |}.
Proof. intros Ht. simpl. by rewrite run_while_terminated. Qed.

(** A run from a state without entry in the map whose name is that of
    a member of [Object.prototype] is rejected with a [TypeError] at the
    first pull. *)
Lemma for_await_inherited fuel this s :
  currentState this = Some s →
  states this !! s = None →
  inherited s = true →
  for_await (S fuel) SuspendedStart this =
    Some {| events := []; outcome := Throw type_error; final := this;
            final_generator := Completed; effects := [] |}.
Proof.
  intros Hcur Hnone Hin. simpl.
  by rewrite (run_while_inherited _ s s); [|apply while_condition_Inherited].
Qed.

(** The constructor stores its three arguments as they are, whether or
    not the initial state has an entry in the map; when it has none and
    is not the name of a member the map inherits, a run of the new engine
    ends at the first pull, with no event, no call of a handler function
    and no failure, and leaves the fields as constructed. *)
Lemma run_from_unmapped_initial_state
    (initialContext : C) (initialState : StateId)
    (stateMap : FSMStateMap E C Err) fuel :
  stateMap !! initialState = None →
  inherited initialState = false →
  FSM.context (FSM.new initialContext initialState stateMap)
    = initialContext
  ∧ currentState (FSM.new initialContext initialState stateMap)
    = Some initialState
  ∧ states (FSM.new initialContext initialState stateMap) = stateMap
  ∧ for_await (S fuel)
      (run (FSM.new initialContext initialState stateMap))
      (FSM.new initialContext initialState stateMap) =
      Some {| events := []; outcome := Normal ();
              final := FSM.new initialContext initialState stateMap;
              final_generator := Completed; effects := [] |}.
Proof.
  intros Hnone Hin. repeat split.
  apply for_await_terminated, terminated_iff. right.
  exists initialState. auto.
Qed.

(** C6 as stated fails on the code.  The constructor stores its three
    arguments as they are; when the initial state has no entry in the
    map but is the name of a member of [Object.prototype], such as
    [toString], the lookup [this.states[this.currentState]] finds that
    member, the loop is entered, and the first pull is rejected with a
    [TypeError]: the run does not end without failure.  No event comes
    out, no function of a handler is called and the fields stay as
    constructed. *)
Theorem run_from_inherited_initial_state
    (initialContext : C) (initialState : StateId)
    (stateMap : FSMStateMap E C Err) fuel :
  stateMap !! initialState = None →
  inherited initialState = true →
  FSM.context (FSM.new initialContext initialState stateMap)
    = initialContext
  ∧ currentState (FSM.new initialContext initialState stateMap)
    = Some initialState
  ∧ states (FSM.new initialContext initialState stateMap) = stateMap
  ∧ for_await (S fuel)
      (run (FSM.new initialContext initialState stateMap))
      (FSM.new initialContext initialState stateMap) =
      Some {| events := []; outcome := Throw type_error;
              final := FSM.new initialContext initialState stateMap;
              final_generator := Completed; effects := [] |}.
Proof.
  intros Hnone Hin. repeat split.
  by apply (for_await_inherited _ _ initialState).
Qed.

(** C7, as amended.  [reset] returns, replaces the context field by
    [newContext] when it is given and is not [null] or [undefined], and
    the current-state field by [newState] when it is given; it leaves as
    they are a field whose argument is not given, the context field when
    the given [newContext] is [null] or [undefined], and the state map;
    and it calls no function of a handler. *)
Theorem reset_replaces_the_given_fields
    (newContext : option C) (newState : option StateId) this :
  value_of (reset newContext newState) this = Normal ()
  ∧ FSM.context (fields_after (reset newContext newState) this) =
      match newContext with
      | Some ctx => if nullish ctx then FSM.context this else ctx
      | None => FSM.context this
      end
  ∧ currentState (fields_after (reset newContext newState) this) =
      match newState with
      | Some s => Some s
      | None => currentState this
      end
  ∧ states (fields_after (reset newContext newState) this) = states this
  ∧ effects_of (reset newContext newState) this = [].
Proof. by destruct newContext, newState. Qed.

Lemma updateContext_identity this :
  fields_after (updateContext (λ ctx, ctx)) this = this.
Proof. by destruct this. Qed.

Lemma perform_updateContext_identity ses :
  perform (AUpdateContext (λ ctx, ctx)) ses = ses.
Proof.
  destruct ses as [this g rs tr]; simpl. unfold method; simpl.
  by rewrite updateContext_identity, app_nil_r.
Qed.

(** C8.  At any point of a run, a call of [updateContext] with the
    identity function changes nothing of what follows: whatever the
    consumer does next, the session -- the results of the pulls, hence
    the events, the fields, the generator and the recorded calls -- is
    the one it would be without the call. *)
Theorem updateContext_identity_is_invisible ses script :
  emitted (received (consume script
                       (perform (AUpdateContext (λ ctx, ctx)) ses)))
    = emitted (received (consume script ses))
  ∧ consume script (perform (AUpdateContext (λ ctx, ctx)) ses)
    = consume script ses.
Proof. by rewrite perform_updateContext_identity. Qed.
End methods.

(** ** The transition helpers *)

Section transitions.
Context {E C Err : Type} `{!Nullish C, !TypeErrors Err}.

(** C9, as amended.  The function [eventBasedTransition] builds never
    raises; it returns the state the map associates with the type tag of
    the event when the tag is a key of the map and that state is not
    empty (falsy); and for a tag that is a key of the map, or is not the
    name of a member the map inherits from [Object.prototype], it returns
    terminate (null) exactly when the tag is missing from the map or the
    associated state is empty. *)
Theorem eventBasedTransition_routes_by_type
    (type : E → string) (eventMap : gmap string StateId)
    (ev : E) (ctx : C) :
  (∃ next_state,
     eventBasedTransition type eventMap ev ctx
       = Normal (Err:=Err) next_state)
  ∧ (∀ s, eventMap !! type ev = Some s → s ≠ "" →
       eventBasedTransition type eventMap ev ctx
         = Normal (Err:=Err) (Some (Own s)))
  ∧ ((eventMap !! type ev = None → inherited (type ev) = false) →
     (eventBasedTransition type eventMap ev ctx = Normal (Err:=Err) None
      ↔ eventMap !! type ev = None ∨ eventMap !! type ev = Some "")).
Proof.
  unfold eventBasedTransition, get, truthy.
  split; [by eexists|]. split.
  - intros s -> Hs; simpl. by rewrite bool_decide_true.
  - intros Hin. split.
    + destruct (eventMap !! type ev) as [s|]; [|by left].
      simpl. case_bool_decide as Hs; [done|]. intros _. right. by f_equal.
    + intros [Hnone|Hempty].
      * rewrite Hnone in *. by rewrite Hin.
      * by rewrite Hempty.
Qed.

(** For a tag that is no key of the map but the name of a member of
    [Object.prototype], the function returns that member, which is none
    of the states. *)
Lemma eventBasedTransition_inherited_tag
    (type : E → string) (eventMap : gmap string StateId)
    (ev : E) (ctx : C) :
  eventMap !! type ev = None → inherited (type ev) = true →
  eventBasedTransition type eventMap ev ctx
    = Normal (Err:=Err) (Some (Inherited (type ev))).
Proof. unfold eventBasedTransition, get. by intros -> ->. Qed.
End transitions.

(** ** Termination *)

Section termination.
Context {E C Err : Type} `{!Nullish C, !TypeErrors Err}.
Implicit Types (this : FSM.t E C Err) (h : FSMStateHandler E C Err)
  (s : StateId).

Lemma advance_states this : states (advance this) = states this.
Proof.
  unfold advance. destruct (currentState this) as [s|]; [|done].
  destruct (states this !! s) as [h|]; [|done].
  destruct (execute h _) as [r|]; [|done].
  by destruct (transition h _ _).
Qed.

Lemma iter_advance_states n this :
  states (Nat.iter n advance this) = states this.
Proof.
  induction n as [|n IH]; [done|]. simpl. by rewrite advance_states.
Qed.

(** The states an engine goes through form a transition path of its
    map. *)
Lemma states_of_run_form_a_path this :
  (∀ s h, states this !! s = Some h → never_fails h) →
  transition_path (states this)
    (λ n, currentState (Nat.iter n advance this)).
Proof.
  intros Hnf n s h Hcur Hh. simpl.
  set (this_n := Nat.iter n advance this) in *.
  destruct (Hnf s h Hh) as (Hex & _ & _ & Htr).
  destruct (Hex (FSM.context this_n)) as [r Hr].
  destruct (Htr (event r) (Types.context r)) as [next_state Hns].
  exists (event r), (Types.context r). rewrite Hns. f_equal.
  unfold advance. rewrite Hcur. unfold this_n at 1.
  by rewrite iter_advance_states, Hh, Hr, Hns.
Qed.

Lemma runs_within n : ∀ this,
  (∀ s h, states this !! s = Some h → never_fails h) →
  undefined_at (states this)
    (λ k, currentState (Nat.iter k advance this)) n →
  ∃ res, for_await (S n) SuspendedStart this = Some res
         ∧ outcome res = Normal ()
         ∧ final_generator res = Completed
         ∧ length (events res) ≤ n.
Proof.
  induction n as [|n IH]; intros this Hnf Hun.
  - eexists. rewrite for_await_terminated; [by repeat split|].
    apply terminated_iff. unfold undefined_at in Hun; simpl in Hun.
    destruct (currentState this) as [s|]; [right|by left]. exists s.
    apply get_None in Hun. auto.
  - destruct (while_condition this) as [[s [h|name]]|] eqn:Hc.
    + pose proof Hc as (Hcur & _ & Hh)%while_condition_Some.
      destruct (Hnf s h Hh) as (Hex & Hen & Hexit & Htr).
      destruct (Hex (FSM.context this)) as [r Hr].
      destruct (Htr (event r) (Types.context r)) as [next_state Hns].
      assert (advance this =
                with_currentState next_state
                  (with_context (Types.context r) this)) as Hadv.
      { unfold advance. by rewrite Hcur, Hh, Hr, Hns. }
      destruct (IH (advance this)) as (res & Hres & Hout & Hgen & Hlen).
      { by rewrite advance_states. }
      { rewrite advance_states. unfold undefined_at in *.
        by rewrite <- Nat.iter_succ_r. }
      rewrite Hadv in Hres.
      rewrite (for_await_step _ _ _ _ _ _ _ Hc (Hen _) Hr (Hexit _ _)
                 Hns Hres).
      eexists. split; [done|]. simpl. repeat split; [done..|lia].
    + (* the path stays at a state the map has no entry for *)
      pose proof Hc as (Hcur & Hnone & Hin & _)%while_condition_Inherited.
      assert (∀ k, Nat.iter k advance this = this) as Hstay.
      { induction k as [|k IHk]; [done|]. simpl. rewrite IHk.
        unfold advance. by rewrite Hcur, Hnone. }
      unfold undefined_at in Hun. rewrite Hstay, Hcur in Hun.
      apply get_None in Hun as (_ & Hun). congruence.
    + eexists. rewrite for_await_terminated; [|done].
      repeat split; simpl; lia.
Qed.

(** When no function of the handlers of the state map fails and every
    transition path of the map from the current state reaches a state
    for which the lookup in the map gives nothing (or the terminate
    signal), a run from these fields ends: for some number of pulls the consumer has
    received finitely many events and the run has ended without failure,
    and allowing more pulls changes nothing. *)
Lemma run_terminates this :
  (∀ s h, states this !! s = Some h → never_fails h) →
  (∀ p, p 0 = currentState this → transition_path (states this) p →
     ∃ n, undefined_at (states this) p n) →
  ∃ fuel res,
    for_await fuel (run this) this = Some res
    ∧ outcome res = Normal ()
    ∧ final_generator res = Completed
    ∧ length (events res) < fuel
    ∧ ∀ fuel', fuel ≤ fuel' →
        for_await fuel' (run this) this = Some res.
Proof.
  intros Hnf Hpaths.
  destruct (Hpaths _ eq_refl (states_of_run_form_a_path this Hnf))
    as [n Hn].
  destruct (runs_within n this Hnf Hn) as (res & Hres & Hout & Hgen & Hlen).
  exists (S n), res. repeat split; [done..|lia|].
  intros fuel' Hle. by apply (for_await_mono (S n)).
Qed.

End termination.

(** ** Scenario 1 *)

Section scenario.
Import Examples.
Context {C Err : Type} `{!Nullish C, !TypeErrors Err}.
Implicit Types
  (success_execute : C → Completion Err (FSMStateResult Event C))
  (success_options : Options Event C Err) (ctx : C).

(** The first two steps of the machine, [idle] and [loading], whatever
    the handler of [success] is. *)
Lemma scenario1_reaches_success success_execute success_options ctx fuel res :
  for_await fuel SuspendedStart
    {| FSM.context := ctx; currentState := Some "success";
       states := scenario1 success_execute success_options |} = Some res →
  ∃ tr,
    for_await (S (S fuel)) SuspendedStart
      (FSM.new ctx "idle" (scenario1 success_execute success_options)) =
      Some {| events := {| type := "go" |} :: {| type := "done" |}
                          :: events res;
              outcome := outcome res;
              final := final res;
              final_generator := final_generator res;
              effects := tr |}.
Proof.
  intros Hres.
  pose proof (for_await_step fuel
                {| FSM.context := ctx; currentState := Some "loading";
                   states := scenario1 success_execute success_options |}
                "loading"
                (createState (produce "done") (transitionTo "success")
                   no_options)
                {| event := {| type := "done" |}; Types.context := ctx |}
                (Some "success") res eq_refl I eq_refl I eq_refl Hres)
    as Hloading.
  pose proof (for_await_step (S fuel)
                (FSM.new ctx "idle"
                   (scenario1 success_execute success_options))
                "idle"
                (createState (produce "go") (transitionTo "loading")
                   no_options)
                {| event := {| type := "go" |}; Types.context := ctx |}
                (Some "loading") _ eq_refl I eq_refl I eq_refl Hloading)
    as Hidle.
  eexists. exact Hidle.
Qed.

(** C4, as amended.  In the machine of Scenario 1, [success] is a state
    with a handler, so its step runs as every step does: when its
    [execute] returns the result [r] (and its hooks, if any, return), a
    full run emits three events, [go], [done] and then the event of [r],
    ends without failure, and leaves the current state absent. *)
Theorem scenario1_run success_execute success_options ctx r fuel :
  success_execute ctx = Normal r →
  returns (opt_onEnter success_options) (λ f, f ctx) →
  returns (opt_onExit success_options)
    (λ f, f (event r) (Types.context r)) →
  4 ≤ fuel →
  ∃ res,
    for_await fuel
      (run (FSM.new ctx "idle" (scenario1 success_execute success_options)))
      (FSM.new ctx "idle" (scenario1 success_execute success_options))
      = Some res
    ∧ events res = [ {| type := "go" |}; {| type := "done" |}; event r ]
    ∧ outcome res = Normal ()
    ∧ currentState (final res) = None.
Proof.
  intros Hex Hen Hexit Hfuel. unfold run.
  edestruct (scenario1_reaches_success success_execute success_options ctx 2)
    as [tr Hrun].
  - eapply for_await_step; [by compute|done..|by compute|].
    by apply for_await_terminated.
  - eexists. split; [by apply (for_await_mono 4)|done].
Qed.

(** No handler for [success] makes the run of the scenario one of two
    events that leaves the current state absent: the step of [success]
    either yields a third event or ends the run with a failure. *)
Lemma scenario1_never_two_events success_execute success_options ctx :
  ¬ ∃ fuel res,
      for_await fuel
        (run (FSM.new ctx "idle" (scenario1 success_execute success_options)))
        (FSM.new ctx "idle" (scenario1 success_execute success_options))
        = Some res
      ∧ events res = [ {| type := "go" |}; {| type := "done" |} ]
      ∧ outcome res = Normal ()
      ∧ currentState (final res) = None.
Proof.
  intros (fuel & res & Hres & Hev & Hout & _). unfold run in Hres.
  set (h := createState success_execute finalTransition success_options).
  set (at_success :=
         {| FSM.context := ctx; currentState := Some "success";
            states := scenario1 success_execute success_options |}).
  assert (while_condition at_success = Some ("success", Own h)) as Hc
    by by compute.
  destruct (step_cases "success" h ctx)
    as [(Hen & r & Hex & Hexit)|(err & ctx' & pre & Hraise)].
  - edestruct (scenario1_reaches_success success_execute success_options
                 ctx 2) as [tr Hrun].
    { eapply (for_await_step _ at_success); [exact Hc|done..|by compute|].
      by apply for_await_terminated. }
    rewrite (for_await_unique _ _ _ _ _ _ Hres Hrun) in Hev. done.
  - edestruct (scenario1_reaches_success success_execute success_options
                 ctx 1) as [tr Hrun].
    { by apply (for_await_step_raises _ at_success _ _ _ _ _ Hc Hraise). }
    rewrite (for_await_unique _ _ _ _ _ _ Hres Hrun) in Hout. done.
Qed.
End scenario.

(** ** Instances *)

Section instances.
Import Examples.

(** *** The context seen by [transition] *)

(** C1 as stated fails: the consumer replaces the context between the
    first event and the second pull, and the [transition] of the first
    step is passed the replaced context, [11], not the context [1] that
    [execute] returned. *)
Lemma transition_sees_context_replaced_at_yield :
  ¬ (contexts_as_returned None
       (observed (consume [ANext; AUpdateContext (λ n, n + 10); ANext]
                    (start (FSM.new 0 "tick" ticking))))
     ∧ commits_follow_execute None
         (observed (consume [ANext; AUpdateContext (λ n, n + 10); ANext]
                      (start (FSM.new 0 "tick" ticking))))).
Proof.
  intros [Hctx _]. vm_compute in Hctx. by destruct Hctx as (_ & [=] & _).
Qed.

(** What the engine does in that run. *)
Lemma context_replaced_at_yield_trace :
  observed (consume [ANext; AUpdateContext (λ n, n + 10); ANext]
              (start (FSM.new 0 "tick" ticking)))
  = [ CallExecute "tick" 0
        (Normal {| event := {| type := "tick" |}; Types.context := 1 |});
      Commit 1;
      Yield {| type := "tick" |};
      CallTransition "tick" {| type := "tick" |} 11 ].
Proof. reflexivity. Qed.

(** The consumer may replace the context before the first pull and set
    the state at a yield. *)
Lemma ticking_undisturbed :
  undisturbed (FSM.new 0 "tick" ticking)
    [AUpdateContext (λ n, n + 1); ANext; ASetState "tock"; ANext; ANext].
Proof.
  intros k a Hk.
  destruct k as [|[|[|[|[|k]]]]]; simpl in Hk; [..|done];
    injection Hk as <-; [right; compute; tauto|by left..].
Qed.

(** The consumer replaces the context before the first pull and sets the
    state at the yield of the first step: the [transition] of that step
    is passed the context [2] its [execute] returned, and in the whole
    run the contexts are passed on as returned. *)
Lemma ticking_contexts :
  (let ses :=
     consume [AUpdateContext (λ n, n + 1)] (start (FSM.new 0 "tick" ticking))
   in
   let resumed := consume [ASetState "tick"] (perform ANext ses) in
   returned_after None (observed (perform ANext ses)) = Some 2
   ∧ (∃ tr,
        observed (perform ANext resumed) =
          observed (perform ANext ses)
            ++ CallTransition "tick" {| type := "tick" |}
                 (FSM.context (engine resumed))
            :: tr)
   ∧ FSM.context (engine resumed) = 2)
  ∧ contexts_as_returned None
      (observed
         (consume
            [AUpdateContext (λ n, n + 1); ANext; ASetState "tock"; ANext;
             ANext]
            (start (FSM.new 0 "tick" ticking)))).
Proof.
  split.
  - destruct (context_of_step_is_the_one_execute_returned
                (FSM.new 0 "tick" ticking) [AUpdateContext (λ n, n + 1)])
      as (_ & _ & Hstep & _).
    destruct (Hstep [ASetState "tick"] "tick" ticker
                {| event := {| type := "tick" |}; Types.context := 2 |})
      as (Hret & Htr & Hctx).
    + reflexivity.
    + constructor; [discriminate|constructor].
    + split; [exact Hret|]. split; [exact Htr|].
      apply Hctx. constructor; [exact I|constructor].
  - destruct (context_of_step_is_the_one_execute_returned
                (FSM.new 0 "tick" ticking)
                [AUpdateContext (λ n, n + 1); ANext; ASetState "tock"; ANext;
                 ANext])
      as (_ & _ & _ & Hrun).
    apply Hrun, ticking_undisturbed.
Defined.

(** *** Failures *)

(** C2 as stated fails: [execute] raises [boom], [onError] is called
    with it and raises [bang] in its turn, and the consumer receives
    [bang], not the failure [execute] raised. *)
Lemma onError_failure_reaches_the_consumer :
  let failed := perform ANext (start (FSM.new 0 "work" failing_onError)) in
  execute raising_onError 0 = Throw "boom"
  ∧ observed failed
    = [ CallExecute (E:=Event) "work" 0 (Throw "boom");
        CallOnError "work" "boom" 0 ]
  ∧ received failed = [Rejected "bang"]
  ∧ received failed ≠ [Rejected "boom"].
Proof. repeat split. discriminate. Qed.

Lemma failing_execute_routed :
  let ses := start (FSM.new 0 "work" failing_execute) in
  let failed := perform ANext ses in
  received failed = [Rejected "boom"]
  ∧ observed failed =
      [CallExecute "work" 0 (Throw "boom"); CallOnError "work" "boom" 0]
  ∧ engine failed = FSM.new 0 "work" failing_execute
  ∧ generator failed = Completed
  ∧ observed (consume [ANext; ASetState "work"; ANext] failed)
    = observed failed
  ∧ emitted (received (consume [ANext; ASetState "work"; ANext] failed))
    = emitted (received failed).
Proof.
  intros ses failed.
  destruct (failure_before_yield_routed_to_onError ses []
              (FSM.new 0 "work" failing_execute) "work" raising_execute
              "boom" 0 [CallExecute "work" 0 (Throw "boom")]
              [ANext; ASetState "work"; ANext])
    as (Hrec & _ & _ & Hobs & _ & Hfields & Hgen & Hlater & Hevents).
  - apply from_start.
  - reflexivity.
  - exact (execute_raises "work" raising_execute 0 "boom" I eq_refl).
  - repeat split; assumption.
Defined.

(** When [onExit] raises, [onError] sees the context [execute] returned,
    and no event comes out. *)
Lemma failing_onExit_run :
  for_await 1 (run (FSM.new 0 "work" failing_onExit))
    (FSM.new 0 "work" failing_onExit)
  = Some {| events := [];
            outcome := Throw "boom";
            final := with_context 1 (FSM.new 0 "work" failing_onExit);
            final_generator := Completed;
            effects :=
              [ CallExecute "work" 0
                  (Normal {| event := {| type := "worked" |};
                             Types.context := 1 |});
                Commit 1;
                CallOnExit "work" {| type := "worked" |} 1;
                CallOnError "work" "boom" 1 ] |}.
Proof. reflexivity. Qed.

(** C10 as stated fails: the consumer replaces the context between the
    event of the step and the pull in which [transition] raises, and
    [onError] is passed the replaced context, [11], not the committed
    context [1] that [execute] returned. *)
Lemma onError_sees_context_replaced_at_yield :
  observed (consume [ANext; AUpdateContext (λ n, n + 10); ANext]
              (start (FSM.new 0 "work" failing_transition)))
  = [ CallExecute "work" 0
        (Normal {| event := {| type := "worked" |}; Types.context := 1 |});
      Commit 1;
      Yield {| type := "worked" |};
      CallTransition "work" {| type := "worked" |} 11;
      CallOnError "work" "boom" 11 ]
  ∧ onError_calls
      (observed (consume [ANext; AUpdateContext (λ n, n + 10); ANext]
                   (start (FSM.new 0 "work" failing_transition))))
    ≠ [("work", "boom", 1)].
Proof. split; [reflexivity|discriminate]. Qed.

(** The consumer calls [reset] without arguments at the yield: the
    [onError] of [work] is passed the committed context, and the current
    state stays [work]. *)
Lemma failing_transition_routed :
  let at_yield := perform ANext (start (FSM.new 0 "work" failing_transition)) in
  let failed := perform ANext (consume [AReset None None] at_yield) in
  observed failed =
    observed at_yield
      ++ [CallTransition "work" {| type := "worked" |} 1;
          CallOnError "work" "boom" 1]
  ∧ received failed = [Yielded {| type := "worked" |}; Rejected "boom"]
  ∧ generator failed = Completed
  ∧ currentState (engine failed) = Some "work".
Proof.
  intros at_yield failed.
  destruct (transition_failure_routed_to_onError
              (FSM.new 0 "work" failing_transition) [] [AReset None None]
              "work" raising_transition
              {| event := {| type := "worked" |}; Types.context := 1 |}
              "boom" [])
    as (_ & Hobs & Hrec & _ & _ & _ & Hgen & _ & _ & Hcur).
  - reflexivity.
  - constructor; [discriminate|constructor].
  - reflexivity.
  - split; [exact Hobs|]. split; [exact Hrec|]. split; [exact Hgen|].
    apply Hcur. constructor; [exact I|constructor].
Defined.

(** *** The current state of a terminated machine *)

(** The Quick Start machine stops on [success], which has no handler:
    two events, no failure, and the current state is [success]. *)
Lemma quick_start_run :
  for_await 3 (run (FSM.new 0 "idle" (quick_start (Err:=string))))
    (FSM.new 0 "idle" quick_start)
  = Some {| events := [ {| type := "go" |}; {| type := "done" |} ];
            outcome := Normal ();
            final := with_currentState (Some "success")
                       (FSM.new 0 "idle" quick_start);
            final_generator := Completed;
            effects :=
              [ CallExecute "idle" 0
                  (Normal {| event := {| type := "go" |};
                             Types.context := 0 |});
                Commit 0; Yield {| type := "go" |};
                CallTransition "idle" {| type := "go" |} 0;
                CallExecute "loading" 0
                  (Normal {| event := {| type := "done" |};
                             Types.context := 0 |});
                Commit 0; Yield {| type := "done" |};
                CallTransition "loading" {| type := "done" |} 0 ] |}.
Proof. reflexivity. Qed.



(** *** Scenario 1 *)

(** C4 as stated fails: with a handler for [success], here one whose
    [execute] yields [finished], the run emits a third event. *)
Lemma scenario1_emits_three_events :
  ¬ ∃ fuel res,
      for_await fuel (run (FSM.new 0 "idle" scenario1_finished))
        (FSM.new 0 "idle" scenario1_finished) = Some res
      ∧ events res = [ {| type := "go" |}; {| type := "done" |} ]
      ∧ outcome res = Normal ()
      ∧ currentState (final res) = None.
Proof.
  intros (fuel & res & Hres & Hev & _).
  destruct fuel as [|[|[|[|fuel]]]]; vm_compute in Hres; try done.
  injection Hres as <-. discriminate Hev.
Qed.

Lemma scenario1_finished_run :
  ∃ res,
    for_await 4 (run (FSM.new 0 "idle" scenario1_finished))
      (FSM.new 0 "idle" scenario1_finished) = Some res
    ∧ events res =
        [ {| type := "go" |}; {| type := "done" |};
          {| type := "finished" |} ]
    ∧ outcome res = Normal ()
    ∧ currentState (final res) = None.
Proof.
  apply (scenario1_run (produce "finished") no_options 0
           {| event := {| type := "finished" |}; Types.context := 0 |} 4).
  - reflexivity.
  - exact I.
  - exact I.
  - apply le_n.
Defined.

(** *** Termination *)

(** The machine of Scenario 1, with a [success] that yields [finished],
    meets the conditions of the termination lemma. *)
Lemma scenario1_never_fails s h :
  scenario1_finished !! s = Some h → never_fails h.
Proof.
  unfold scenario1_finished, scenario1.
  intros [[_ <-]|[_ [[_ <-]|[_ [_ <-]%lookup_singleton_Some]
                   ]%lookup_insert_Some]]%lookup_insert_Some;
    repeat split; intros; simpl; eauto.
Qed.

Lemma scenario1_paths_end p :
  p 0 = Some "idle" →
  transition_path scenario1_finished p →
  ∃ n, undefined_at scenario1_finished p n.
Proof.
  intros Hp0 Hpath. exists 3.
  destruct (Hpath 0 "idle" _ Hp0 eq_refl) as (ev0 & ctx0 & [= Hp1]).
  destruct (Hpath 1 "loading" _ (eq_sym Hp1) eq_refl)
    as (ev1 & ctx1 & [= Hp2]).
  destruct (Hpath 2 "success" _ (eq_sym Hp2) eq_refl)
    as (ev2 & ctx2 & [= Hp3]).
  unfold undefined_at. by rewrite <- Hp3.
Qed.

Lemma scenario1_terminates :
  ∃ fuel res,
    for_await fuel (run (FSM.new 0 "idle" scenario1_finished))
      (FSM.new 0 "idle" scenario1_finished) = Some res
    ∧ outcome res = Normal ()
    ∧ final_generator res = Completed
    ∧ length (events res) < fuel
    ∧ ∀ fuel', fuel ≤ fuel' →
        for_await fuel' (run (FSM.new 0 "idle" scenario1_finished))
          (FSM.new 0 "idle" scenario1_finished) = Some res.
Proof.
  apply (run_terminates (FSM.new 0 "idle" scenario1_finished)).
  - exact scenario1_never_fails.
  - exact scenario1_paths_end.
Defined.

(** In the machine [into_constructor] no function of a handler fails,
    and every transition path reaches a state without entry in the map
    or the terminate signal. *)
Lemma into_constructor_never_fails s h :
  into_constructor !! s = Some h → never_fails h.
Proof.
  unfold into_constructor. intros [_ <-]%lookup_singleton_Some.
  repeat split; intros; simpl; eauto.
Qed.

Lemma into_constructor_paths_end p :
  transition_path into_constructor p →
  ∃ n, unmapped_at into_constructor p n.
Proof.
  intros Hpath.
  destruct (p 0) as [s|] eqn:Hp0;
    [|exists 0; unfold unmapped_at; by rewrite Hp0].
  destruct (into_constructor !! s) as [h|] eqn:Hh;
    [|exists 0; unfold unmapped_at; by rewrite Hp0].
  destruct (Hpath 0 s h Hp0 Hh) as (ev & ctx & Hnext).
  unfold into_constructor in Hh.
  apply lookup_singleton_Some in Hh as [_ <-].
  injection Hnext as Hnext.
  exists 1. unfold unmapped_at. by rewrite <- Hnext.
Qed.

(** C5 as stated fails on the code.  The machine [into_constructor]
    meets the two conditions of C5: its handlers never fail, and
    every transition path reaches a state with no entry in the map, here
    [constructor]; yet its run from [idle] ends with a failure.  After
    the event of [idle] the current state is [constructor], the lookup
    [this.states[this.currentState]] finds the member of that name that
    the map inherits from [Object.prototype], the loop is entered again,
    and the pull is rejected with a [TypeError]. *)
Theorem run_into_inherited_name_fails :
  (∀ s h, into_constructor !! s = Some h → never_fails h)
  ∧ (∀ p, transition_path into_constructor p →
       ∃ n, unmapped_at into_constructor p n)
  ∧ for_await 2 (run (FSM.new 0 "idle" into_constructor))
      (FSM.new 0 "idle" into_constructor)
    = Some {| events := [ {| type := "go" |} ];
              outcome := Throw type_error;
              final := with_currentState (Some "constructor")
                         (FSM.new 0 "idle" into_constructor);
              final_generator := Completed;
              effects :=
                [ CallExecute "idle" 0
                    (Normal {| event := {| type := "go" |};
                               Types.context := 0 |});
                  Commit 0; Yield {| type := "go" |};
                  CallTransition "idle" {| type := "go" |} 0 ] |}
  ∧ ¬ ∃ fuel res,
        for_await fuel (run (FSM.new 0 "idle" into_constructor))
          (FSM.new 0 "idle" into_constructor) = Some res
        ∧ outcome res = Normal ().
Proof.
  assert (for_await 2 (run (FSM.new 0 "idle" into_constructor))
            (FSM.new 0 "idle" into_constructor)
          = Some {| events := [ {| type := "go" |} ];
                    outcome := Throw type_error;
                    final := with_currentState (Some "constructor")
                               (FSM.new 0 "idle" into_constructor);
                    final_generator := Completed;
                    effects :=
                      [ CallExecute "idle" 0
                          (Normal {| event := {| type := "go" |};
                                     Types.context := 0 |});
                        Commit 0; Yield {| type := "go" |};
                        CallTransition "idle" {| type := "go" |} 0 ] |})
    as Hrun by reflexivity.
  split; [exact into_constructor_never_fails|].
  split; [exact into_constructor_paths_end|].
  split; [exact Hrun|].
  intros (fuel & res & Hres & Hout).
  rewrite (for_await_unique _ _ _ _ _ _ Hres Hrun) in Hout. discriminate.
Qed.

(** *** An initial state without handler *)

Lemma unmapped_initial_state_run :
  FSM.context (FSM.new 0 "success" (quick_start (Err:=string))) = 0
  ∧ currentState (FSM.new 0 "success" (quick_start (Err:=string)))
    = Some "success"
  ∧ states (FSM.new 0 "success" (quick_start (Err:=string))) = quick_start
  ∧ for_await 1 (run (FSM.new 0 "success" (quick_start (Err:=string))))
      (FSM.new 0 "success" quick_start) =
      Some {| events := []; outcome := Normal ();
              final := FSM.new 0 "success" quick_start;
              final_generator := Completed; effects := [] |}.
Proof.
  apply (run_from_unmapped_initial_state 0 "success" quick_start 0);
    reflexivity.
Defined.

(** An engine constructed with the empty map and the initial state
    [toString]: the run is rejected at the first pull. *)
Lemma inherited_initial_state_run :
  FSM.context (FSM.new (E:=Event) (Err:=string) 0 "toString" ∅) = 0
  ∧ currentState (FSM.new (E:=Event) (Err:=string) 0 "toString" ∅)
    = Some "toString"
  ∧ states (FSM.new (E:=Event) (Err:=string) 0 "toString" ∅) = ∅
  ∧ for_await 1 (run (FSM.new (E:=Event) (Err:=string) 0 "toString" ∅))
      (FSM.new 0 "toString" ∅) =
      Some {| events := []; outcome := Throw type_error;
              final := FSM.new 0 "toString" ∅;
              final_generator := Completed; effects := [] |}.
Proof.
  apply (run_from_inherited_initial_state 0 "toString" ∅ 0); reflexivity.
Defined.

(** *** Resetting with a context that is null *)

(** C7 as stated fails: for contexts of the type [number | null], a
    [reset] that is given the context [null] leaves the context field
    as it is. *)
Lemma reset_keeps_context_on_given_null :
  FSM.context
    (fields_after (reset (Some None) None)
       (FSM.new (E:=Event) (Err:=string) (Some 5) "idle" ∅))
  = Some 5
  ∧ FSM.context
      (fields_after (reset (Some None) None)
         (FSM.new (E:=Event) (Err:=string) (Some 5) "idle" ∅))
    ≠ None.
Proof. split; [reflexivity|discriminate]. Qed.

(** *** Routing by event type *)

(** C9 as stated fails: the tag [stop] is a key of the map, and the
    function returns terminate. *)
Lemma eventBasedTransition_falsy_target :
  ¬ ((∀ s, ({[ "stop" := "" ]} : gmap string string)
             !! type {| type := "stop" |} = Some s →
        eventBasedTransition type {[ "stop" := "" ]} {| type := "stop" |} 0
          = Normal (Err:=string) (Some (Own s)))
     ∧ (eventBasedTransition type {[ "stop" := "" ]} {| type := "stop" |} 0
          = Normal (Err:=string) None
        ↔ ({[ "stop" := "" ]} : gmap string string)
            !! type {| type := "stop" |} = None)).
Proof. intros [Hkey _]. by specialize (Hkey "" eq_refl). Qed.

(** The tag [toString] is no key of the map, and the function returns
    the member of that name. *)
Lemma eventBasedTransition_toString :
  eventBasedTransition type {[ "stop" := "stopped" ]}
    {| type := "toString" |} 0
  = Normal (Err:=string) (Some (Inherited "toString")).
Proof. reflexivity. Qed.
End instances.

(** * Further properties of the code *)

(** ** [conditionalTransition] *)

Section conditional.
Context {E C Err : Type} `{!Nullish C, !TypeErrors Err}.
Implicit Types (conditions before after : list ((E → C → bool) * StateId))
  (defaultState : option StateId) (ev : E) (ctx : C).

(** X1.  [conditionalTransition] returns the target of the first
    condition whose predicate holds: the conditions before it, whose
    predicates do not hold, and everything after it, are of no
    consequence. *)
Theorem conditionalTransition_first_match
    before (when : E → C → bool) (then_ : StateId) after defaultState
    ev ctx :
  Forall (λ c, c.1 ev ctx = false) before →
  when ev ctx = true →
  conditionalTransition (before ++ (when, then_) :: after) defaultState ev ctx
    = Normal (Err:=Err) (Some then_).
Proof.
  intros Hbefore Hwhen.
  induction Hbefore as [|[w t] before Hw _ IH]; simpl in *.
  - by rewrite Hwhen.
  - by rewrite Hw.
Qed.

(** X2.  When no predicate holds -- in particular when the list of
    conditions is empty -- [conditionalTransition] returns the default
    state, which is terminate (null) when none is declared. *)
Theorem conditionalTransition_no_match conditions defaultState ev ctx :
  Forall (λ c, c.1 ev ctx = false) conditions →
  conditionalTransition conditions defaultState ev ctx
    = Normal (Err:=Err) defaultState.
Proof.
  intros Hnone. induction Hnone as [|[w t] conditions Hw _ IH]; simpl in *.
  - done.
  - by rewrite Hw.
Qed.
End conditional.

(** ** Events of a run *)

Section events.
Context {E C Err : Type} `{!Nullish C, !TypeErrors Err}.
Implicit Types (this : FSM.t E C Err) (h : FSMStateHandler E C Err)
  (r : FSMStateResult E C) (g : Generator E C Err) (s : StateId)
  (tr : list (Effect E C Err)) (ses : Session E C Err)
  (script : list (Action C)) (returned : option E).

Lemma events_as_returned_app returned tr1 tr2 :
  events_as_returned returned (tr1 ++ tr2) ↔
  events_as_returned returned tr1
  ∧ events_as_returned (event_after returned tr1) tr2.
Proof.
  revert returned. induction tr1 as [|eff tr1 IH]; intros returned; simpl.
  - tauto.
  - destruct eff as [| ? ? []| | | | |]; rewrite ?IH; tauto.
Qed.

Lemma event_after_app returned tr1 tr2 :
  event_after returned (tr1 ++ tr2) =
  event_after (event_after returned tr1) tr2.
Proof.
  revert returned. induction tr1 as [|eff tr1 IH]; intros returned; simpl.
  - done.
  - by destruct eff as [| ? ? []| | | | |].
Qed.

Lemma yielded_app tr1 tr2 : yielded (tr1 ++ tr2) = yielded tr1 ++ yielded tr2.
Proof. apply omap_app. Qed.

Lemma executed_app tr1 tr2 :
  executed (tr1 ++ tr2) = executed tr1 ++ executed tr2.
Proof. apply omap_app. Qed.

(** What the loop records, from its condition to the next suspension. *)
Lemma run_while_events returned this :
  let '(res, this', tr) := run_while this in
  events_as_returned returned tr
  ∧ match res with
    | Normal (Some (s, h, r)) =>
        event_after returned tr = Some (event r)
        ∧ yielded tr = [event r] ∧ executed tr = [event r]
    | Normal None => yielded tr = [] ∧ executed tr = []
    | Throw _ => yielded tr = [] ∧ length (executed tr) ≤ 1
    end.
Proof.
  destruct (run_while_cases this)
    as [[_ ->]|[(s & _ & ->)
               |[(s & h & r & _ & _ & ->)
                |(s & h & err & ctx' & pre & _ & Hraise & ->)]]].
  - by repeat split.
  - simpl. repeat split; auto.
  - unfold called. by destruct (onEnter h), (onExit h).
  - unfold called.
    destruct Hraise as [f Hf _| |r f]; destruct (onEnter h), (onError h);
      simpl; repeat split; eauto.
Qed.

Lemma next_events g this returned :
  (∀ s h r, g = SuspendedYield s h r → returned = Some (event r)) →
  let '(res, this', g', tr) := next g this in
  events_as_returned returned tr
  ∧ (∀ s h r, g' = SuspendedYield s h r →
       event_after returned tr = Some (event r))
  ∧ yielded tr = emitted [res]
  ∧ match res with
    | Yielded value => executed tr = [value]
    | Done => executed tr = []
    | Rejected _ => length (executed tr) ≤ 1
    end.
Proof.
  intros Hg.
  assert (∀ returned0 this0,
            let '(res, this', g', tr) := settle (run_while this0) in
            events_as_returned returned0 tr
            ∧ (∀ s h r, g' = SuspendedYield s h r →
                 event_after returned0 tr = Some (event r))
            ∧ yielded tr = emitted [res]
            ∧ match res with
              | Yielded value => executed tr = [value]
              | Done => executed tr = []
              | Rejected _ => length (executed tr) ≤ 1
              end) as Hloop.
  { intros returned0 this0.
    pose proof (run_while_events returned0 this0) as Hev.
    destruct (run_while this0) as [[[[[[s0 h0] r0]|]|err] this'] tr];
      simpl; destruct Hev as [Hev Hres].
    - destruct Hres as (? & ? & ?). repeat split; try done.
      by intros s h r [= _ _ <-].
    - by destruct Hres.
    - by destruct Hres. }
  destruct g as [|s0 h0 r0|].
  - apply Hloop.
  - rewrite (Hg s0 h0 r0 eq_refl).
    destruct (transition h0 (event r0) (FSM.context this))
      as [next_state|err] eqn:Ht.
    + rewrite (next_resume_returns _ _ _ _ _ Ht). simpl.
      pose proof (Hloop None (with_currentState next_state this)) as Hl.
      destruct (settle _) as [[[res this'] g'] tr]. simpl.
      destruct Hl as (? & ? & ? & ?). by repeat split.
    + rewrite (next_resume_catches _ _ _ _ _ Ht). simpl.
      unfold called. destruct (onError h0); simpl; repeat split; auto; done.
  - by repeat split.
Qed.

Lemma session_events this0 script :
  let ses := consume script (start this0) in
  events_as_returned None (observed ses)
  ∧ (∀ s h r, generator ses = SuspendedYield s h r →
       event_after None (observed ses) = Some (event r))
  ∧ emitted (received ses) = yielded (observed ses).
Proof.
  induction script as [|a script IH] using rev_ind; [done|].
  rewrite consume_snoc. simpl in *. destruct IH as (Hobs & Hg & Hem).
  set (ses := consume script (start this0)) in *.
  destruct (pull_or_mutator a) as [->|Hmut].
  - pose proof (next_events (generator ses) (engine ses)
                  (event_after None (observed ses)) Hg) as Hn.
    destruct (next (generator ses) (engine ses))
      as [[[res this'] g'] tr] eqn:Hnext.
    rewrite (perform_next _ _ _ _ _ Hnext); simpl.
    destruct Hn as (Htr & Hy & Hyield & _).
    rewrite events_as_returned_app, event_after_app, yielded_app.
    repeat split; try done.
    unfold emitted in *. by rewrite omap_app, Hem, Hyield.
  - destruct (perform_mutator a ses Hmut) as (-> & -> & -> & _). done.
Qed.

(** X3.  Whatever the consumer does between the pulls, the event passed
    to [onExit], the event handed to the consumer and the event passed to
    [transition] in a step are the event of the result [execute] returned
    in that step; and the events the consumer has received are the events
    the run has yielded, in order. *)
Theorem event_of_step_is_the_one_execute_returned this0 script :
  events_as_returned None (observed (consume script (start this0)))
  ∧ emitted (received (consume script (start this0)))
    = yielded (observed (consume script (start this0))).
Proof.
  destruct (session_events this0 script) as (Hev & _ & Hem). by split.
Qed.
End events.

(** ** Runs, pulls and the synchronous methods *)

Section pulls.
Context {E C Err : Type} `{!Nullish C, !TypeErrors Err}.
Implicit Types (this : FSM.t E C Err) (h : FSMStateHandler E C Err)
  (r : FSMStateResult E C) (g : Generator E C Err) (s : StateId)
  (tr : list (Effect E C Err)) (ses : Session E C Err)
  (script : list (Action C)).

(** X4.  A call of [setState] while the run is suspended at a [yield] is
    lost: when the run is resumed and [transition] returns, the result of
    [transition] is assigned to the current state, and the pull gives what
    it would have given without the call. *)
Theorem setState_at_yield_is_overwritten ses s h r state next_state :
  generator ses = SuspendedYield s h r →
  transition h (event r) (FSM.context (engine ses)) = Normal next_state →
  perform ANext (perform (ASetState state) ses) = perform ANext ses.
Proof.
  intros Hg Ht. destruct ses as [this g rs tr]; simpl in *. subst g.
  unfold perform, method; cbn [engine generator received observed].
  rewrite app_nil_r.
  change (fields_after (setState state) this)
    with (with_currentState (Some state) this).
  rewrite (next_resume_returns s h r (with_currentState (Some state) this)
             next_state) by done.
  by rewrite (next_resume_returns s h r this next_state) by done.
Qed.

(** X5.  When a pull hands an event to the consumer, the step that
    produced it is not over: until the next pull, [getCurrentState]
    returns the state that produced the event, not the state the machine
    goes to next, and [getContext] returns the context [execute]
    returned. *)
Theorem fields_when_an_event_comes_out ses s h r :
  generator (perform ANext ses) = SuspendedYield s h r →
  received (perform ANext ses) = received ses ++ [Yielded (event r)]
  ∧ value_of getCurrentState (engine (perform ANext ses)) = Normal (Some s)
  ∧ value_of (isInState s) (engine (perform ANext ses)) = Normal true
  ∧ value_of getContext (engine (perform ANext ses))
    = Normal (Types.context r)
  ∧ states (engine ses) !! s = Some h.
Proof.
  pose proof (next_fields (generator ses) (engine ses)) as Hf.
  destruct (next (generator ses) (engine ses))
    as [[[res this'] g'] tr] eqn:Hnext.
  rewrite (perform_next _ _ _ _ _ Hnext); simpl. intros ->.
  destruct Hf as [_ Hf]. destruct (Hf s h r eq_refl) as (? & Hctx & Hcur & ->).
  unfold value_of; simpl. rewrite Hcur, Hctx.
  repeat split; try done. by rewrite bool_decide_true.
Qed.

(** X6.  When [onEnter], [execute] or [onExit] raises [err] and the
    [onError] of the handler raises [err'] in its turn, the pull is
    rejected with [err'], the failure of [onError]: the first failure is
    lost.  [onError] has been called once and the run is over. *)
Theorem failure_of_onError_replaces_the_failure
    ses before this s h err ctx' pre f err' :
  reaches_loop (generator ses) (engine ses) before this →
  while_condition this = Some (s, Own h) →
  raises_before_yield s h (FSM.context this) err ctx' pre →
  onError h = Some f →
  f err ctx' = Throw err' →
  received (perform ANext ses) = received ses ++ [Rejected err']
  ∧ observed (perform ANext ses) =
      observed ses ++ before ++ pre ++ [CallOnError s err ctx']
  ∧ engine (perform ANext ses) = with_context ctx' this
  ∧ generator (perform ANext ses) = Completed.
Proof.
  intros Hreach Hc Hraise Hf Herr.
  assert (next (generator ses) (engine ses) =
            (Rejected err', with_context ctx' this, Completed,
             before ++ pre ++ [CallOnError s err ctx'])) as Hnext.
  { rewrite (next_reaches_loop _ _ _ _ Hreach).
    rewrite (run_while_catches _ _ _ _ _ _ Hc Hraise).
    unfold rethrown, called. by rewrite Hf, Herr. }
  by rewrite (perform_next _ _ _ _ _ Hnext).
Qed.

(** X7.  A generator that has completed, by the end of the loop or by a
    failure, stays completed: whatever the consumer does -- also
    [setState] or [reset] to a state with a handler -- every later pull
    returns done, and no function of a handler is called.  Going on needs
    another call of [run]. *)
Theorem completed_generator_stays_completed ses script :
  generator ses = Completed →
  generator (consume script ses) = Completed
  ∧ observed (consume script ses) = observed ses
  ∧ ∃ n, received (consume script ses) = received ses ++ replicate n Done.
Proof.
  revert ses. induction script as [|a script IH]; intros ses Hg.
  - repeat split; [done..|]. exists 0. by rewrite app_nil_r.
  - simpl. destruct (pull_or_mutator a) as [->|Hmut].
    + destruct (IH (perform ANext ses)) as (Hg' & Hobs & n & Hrec).
      { simpl. by rewrite Hg. }
      rewrite Hg', Hobs, Hrec. simpl. rewrite Hg. simpl.
      rewrite app_nil_r. repeat split; [done..|].
      exists (S n). by rewrite <- app_assoc.
    + destruct (perform_mutator a ses Hmut) as (Hgen & Hrec & Hobs & _).
      destruct (IH (perform a ses)) as (Hg' & Hobs' & n & Hrec');
        [congruence|].
      rewrite Hg', Hobs', Hrec', Hobs, Hrec. repeat split; [done..|].
      by exists n.
Qed.

(** X12.  The state map of an engine is never changed: after any sequence
    of pulls and of calls of [setState], [updateContext] and [reset], it
    is the map the engine was constructed with. *)
Theorem state_map_is_never_changed
    (initialContext : C) (initialState : StateId)
    (stateMap : FSMStateMap E C Err) script :
  states (engine (consume script
                    (start (FSM.new initialContext initialState stateMap))))
  = stateMap.
Proof.
  by destruct (session_states
                 (FSM.new initialContext initialState stateMap) script).
Qed.
End pulls.

Section steps.
Context {E C Err : Type} `{!Nullish C, !TypeErrors Err}.
Implicit Types (this : FSM.t E C Err) (h : FSMStateHandler E C Err)
  (r : FSMStateResult E C) (g : Generator E C Err) (s : StateId)
  (tr : list (Effect E C Err)).

(** X10.  In a run, every call of [execute] that returns gives the
    consumer one event, the event of its result, in order -- except a last
    one whose [onExit] then raises, which ends the run before its event
    comes out.  A run that ends without failure has emitted exactly the
    events of the results of its calls of [execute]. *)
Theorem every_returned_execute_gives_one_event fuel g this res :
  for_await fuel g this = Some res →
  yielded (effects res) = events res
  ∧ (outcome res = Normal () → executed (effects res) = events res)
  ∧ (executed (effects res) = events res
     ∨ ∃ ev err, executed (effects res) = events res ++ [ev]
                 ∧ outcome res = Throw err).
Proof.
  revert g this res. induction fuel as [|fuel IH]; intros g this res; [done|].
  pose proof (next_events g this
                match g with
                | SuspendedYield _ _ r => Some (event r)
                | _ => None
                end) as Hn.
  simpl. destruct (next g this) as [[[[value| |error] this1] g1] tr].
  - destruct Hn as (_ & _ & Hy & Hex); [by intros s h r ->|].
    destruct (for_await fuel g1 this1) as [res1|] eqn:Hres1; [|done].
    intros [= <-]. simpl.
    destruct (IH _ _ _ Hres1) as (Hy1 & Hnormal & Hor).
    rewrite yielded_app, executed_app, Hy, Hex, Hy1. simpl.
    repeat split; [by intros ->%Hnormal|].
    destruct Hor as [->|(ev & err & -> & Herr)]; [by left|right].
    by exists ev, err.
  - destruct Hn as (_ & _ & Hy & Hex); [by intros s h r ->|].
    intros [= <-]. simpl. rewrite Hy, Hex. repeat split; auto.
  - destruct Hn as (_ & _ & Hy & Hex); [by intros s h r ->|].
    intros [= <-]. simpl. rewrite Hy. repeat split; [done|].
    destruct (executed tr) as [|ev [|ev' l]]; [by left| |simpl in Hex; lia].
    right. by exists ev, error.
Qed.

(** X11.  The empty string is no state to the loop of [run]: a pull that
    comes to the loop with the current state [""] -- the state the engine
    was given, or the state a transition has just returned -- ends the run
    there without calling a handler, also when the map has a handler for
    [""], and leaves [""], not null, as the current state. *)
Theorem empty_state_ends_the_run g this0 before this :
  reaches_loop g this0 before this →
  currentState this = Some "" →
  next g this0 = (Done, this, Completed, before)
  ∧ value_of getCurrentState this = Normal (Some "").
Proof.
  intros Hreach Hcur. rewrite (next_reaches_loop _ _ _ _ Hreach).
  rewrite run_while_terminated.
  - simpl. rewrite app_nil_r. unfold value_of; simpl. by rewrite Hcur.
  - apply terminated_iff. right. exists "". auto.
Qed.

(** X14.  A step whose [transition] returns terminate (null) is the last
    one: the run emits the event of that step and ends without failure at
    the next pull, with the context [execute] returned and no current
    state. *)
Theorem step_with_null_transition_is_the_last this s h r fuel :
  while_condition this = Some (s, Own h) →
  returns (onEnter h) (λ f, f (FSM.context this)) →
  execute h (FSM.context this) = Normal r →
  returns (onExit h) (λ f, f (event r) (Types.context r)) →
  transition h (event r) (Types.context r) = Normal None →
  ∃ res,
    for_await (S (S fuel)) (run this) this = Some res
    ∧ events res = [event r]
    ∧ outcome res = Normal ()
    ∧ final res = with_currentState None (with_context (Types.context r) this)
    ∧ final_generator res = Completed.
Proof.
  intros Hc Hen Hex Hexit Ht. eexists. split.
  - eapply (for_await_step (S fuel)); [done..|].
    by apply for_await_terminated.
  - done.
Qed.

(** X13.  [setState] forces the current state and nothing else: it calls
    no hook of the state that is left or of the state that is entered, and
    leaves the context and the state map as they are; afterwards
    [getCurrentState] returns the state, [isInState] holds of that state
    only, and the machine is terminated exactly when the state is empty,
    or has no handler and is not the name of a member the state map
    inherits from [Object.prototype]. *)
Theorem setState_forces_the_current_state (state state' : StateId) this :
  effects_of (setState state) this = []
  ∧ FSM.context (fields_after (setState state) this) = FSM.context this
  ∧ states (fields_after (setState state) this) = states this
  ∧ value_of getCurrentState (fields_after (setState state) this)
    = Normal (Some state)
  ∧ (value_of (isInState state') (fields_after (setState state) this)
       = Normal true ↔ state' = state)
  ∧ (terminated (fields_after (setState state) this)
     ↔ state = ""
       ∨ (states this !! state = None ∧ inherited state = false)).
Proof.
  repeat split; try done.
  - unfold value_of; simpl. intros [= Heq].
    by apply bool_decide_eq_true in Heq as [= ->].
  - intros ->. unfold value_of; simpl. by rewrite bool_decide_true.
  - intros [[=]|(s & [= <-] & Hs)]%terminated_iff. done.
  - intros Hs. apply terminated_iff. right. by exists state.
Qed.

(** [updateContext] replaces the context by the image of the
    current one and nothing else: [getContext] then returns that image,
    the current state and the state map are as before, no hook is called;
    and two calls in a row are one call with the composed function. *)
Theorem updateContext_replaces_the_context (f f' : C → C) this :
  effects_of (updateContext f) this = []
  ∧ value_of getContext (fields_after (updateContext f) this)
    = Normal (f (FSM.context this))
  ∧ currentState (fields_after (updateContext f) this) = currentState this
  ∧ states (fields_after (updateContext f) this) = states this
  ∧ fields_after (updateContext f') (fields_after (updateContext f) this)
    = fields_after (updateContext (λ ctx, f' (f ctx))) this.
Proof. done. Qed.
End steps.

(** ** Hooks that return *)

Section hooks.
Context {E C Err : Type} `{!Nullish C, !TypeErrors Err}.
Implicit Types (this : FSM.t E C Err) (h : FSMStateHandler E C Err)
  (r : FSMStateResult E C) (g : Generator E C Err) (s : StateId)
  (tr : list (Effect E C Err)).







End hooks.

(** ** The order of the calls *)

Section lifecycle.
Context {E C Err : Type} `{!Nullish C, !TypeErrors Err}.
Implicit Types (this : FSM.t E C Err) (h : FSMStateHandler E C Err)
  (r : FSMStateResult E C) (g : Generator E C Err) (s : StateId)
  (tr : list (Effect E C Err)) (ses : Session E C Err)
  (script : list (Action C)) (ph : Phase).

Lemma phase_after_app (o : option Phase) tr1 tr2 :
  phase_after o (tr1 ++ tr2) = phase_after (phase_after o tr1) tr2.
Proof. apply foldl_app. Qed.

Lemma same_state_refl s ph : same_state s s ph = Some ph.
Proof. unfold same_state. by rewrite decide_True. Qed.

(** Where the generator stands and where the trace stands agree. *)
Definition stands_at g ph : Prop :=
  match g with
  | SuspendedStart => ph = Between
  | SuspendedYield s _ _ => ph = Emitted s
  | Completed => True
  end.

Lemma run_while_phase this ph :
  ph = Between ∨ (∃ s0, ph = Transited s0) →
  let '(res, this', g', tr) := settle (run_while this) in
  ∃ ph', phase_after (Some ph) tr = Some ph'
         ∧ g' ≠ SuspendedStart ∧ stands_at g' ph'.
Proof.
  intros Hph.
  destruct (run_while_cases this)
    as [[_ ->]|[(s & _ & ->)
               |[(s & h & r & _ & _ & ->)
                |(s & h & err & ctx' & pre & _ & Hraise & ->)]]]; simpl.
  - by exists ph.
  - by exists ph.
  - exists (Emitted s). split; [|done]. unfold called.
    destruct Hph as [->|[s0 ->]]; destruct (onEnter h), (onExit h); simpl;
      repeat (rewrite same_state_refl; simpl); done.
  - unfold called.
    destruct Hraise as [f Hf _| |r f _ _ Hf _]; rewrite ?Hf;
      destruct Hph as [->|[s0 ->]]; destruct (onEnter h), (onError h);
      eexists; (split; [|done]); simpl;
      repeat (rewrite same_state_refl; simpl); reflexivity.
Qed.

Lemma next_phase g this ph :
  stands_at g ph →
  let '(res, this', g', tr) := next g this in
  ∃ ph', phase_after (Some ph) tr = Some ph'
         ∧ g' ≠ SuspendedStart ∧ stands_at g' ph'.
Proof.
  intros Hg. destruct g as [|s0 h0 r0|]; simpl in Hg.
  - apply (run_while_phase this ph). by left.
  - subst ph.
    destruct (transition h0 (event r0) (FSM.context this))
      as [next_state|err] eqn:Ht.
    + rewrite (next_resume_returns _ _ _ _ _ Ht).
      pose proof (run_while_phase (with_currentState next_state this)
                    (Transited s0)) as Hl.
      cbn [next] in *.
      destruct (settle (run_while (with_currentState next_state this)))
        as [[[res this'] g'] tr].
      destruct Hl as (ph' & Hph' & Hg'); [by right; exists s0|].
      exists ph'. split; [|done]. simpl. by rewrite same_state_refl.
    + rewrite (next_resume_catches _ _ _ _ _ Ht). unfold called.
      destruct (onError h0); eexists; (split; [|done]); simpl;
        repeat (rewrite same_state_refl; simpl); reflexivity.
  - by exists ph.
Qed.

Lemma session_phase this0 script :
  let ses := consume script (start this0) in
  ∃ ph, phase_after (Some Between) (observed ses) = Some ph
        ∧ stands_at (generator ses) ph.
Proof.
  induction script as [|a script IH] using rev_ind; [by exists Between|].
  rewrite consume_snoc. simpl in *. destruct IH as (ph & Hph & Hg).
  set (ses := consume script (start this0)) in *.
  destruct (pull_or_mutator a) as [->|Hmut].
  - pose proof (next_phase (generator ses) (engine ses) ph Hg) as Hn.
    destruct (next (generator ses) (engine ses))
      as [[[res this'] g'] tr] eqn:Hnext.
    rewrite (perform_next _ _ _ _ _ Hnext); simpl.
    destruct Hn as (ph' & Hph' & _ & Hg').
    exists ph'. by rewrite phase_after_app, Hph.
  - destruct (perform_mutator a ses Hmut) as (-> & _ & -> & _).
    by exists ph.
Qed.

(** X15.  Whatever the consumer does between the pulls, the calls of a
    run follow the protocol of a step: for one state, [onEnter] if there
    is one, then [execute], then the assignment of the context, then
    [onExit] if there is one, then the [yield], then [transition]; the
    next step begins only after [transition]; [onError] is called only
    right after a call of the same state that can have raised ([onEnter],
    a raising [execute], [onExit], [transition]), and nothing is called
    after [onError]. *)
Theorem calls_follow_the_protocol this0 script :
  is_Some (phase_after (Some Between)
             (observed (consume script (start this0)))).
Proof. destruct (session_phase this0 script) as (ph & -> & _). by eexists. Qed.
End lifecycle.

(** ** Instances of the further properties *)

Section further_instances.
Import Examples.

Lemma conditionalTransition_second_matches :
  conditionalTransition (E:=Event) (Err:=string)
    ([(λ _ n, bool_decide (n < 3), "low")]
       ++ ((λ _ n, bool_decide (n < 5), "middle"))
       :: [(λ _ n, bool_decide (n < 7), "high")])
    None {| type := "tick" |} 4
  = Normal (Some "middle").
Proof.
  apply (conditionalTransition_first_match
           [(λ _ n, bool_decide (n < 3), "low")]
           (λ _ n, bool_decide (n < 5)) "middle"
           [(λ _ n, bool_decide (n < 7), "high")] None {| type := "tick" |} 4).
  - repeat constructor.
  - reflexivity.
Defined.

Lemma conditionalTransition_falls_to_default :
  conditionalTransition (E:=Event) (Err:=string)
    [(λ _ n, bool_decide (n < 3), "low");
     (λ _ n, bool_decide (n < 5), "middle")]
    (Some "rest") {| type := "tick" |} 9
  = Normal (Some "rest").
Proof.
  apply (conditionalTransition_no_match
           [(λ _ n, bool_decide (n < 3), "low");
            (λ _ n, bool_decide (n < 5), "middle")]
           (Some "rest") {| type := "tick" |} 9).
  repeat constructor.
Defined.

Lemma setState_lost_while_ticking :
  perform ANext
    (perform (ASetState "elsewhere")
       (consume [ANext] (start (FSM.new 0 "tick" ticking))))
  = perform ANext (consume [ANext] (start (FSM.new 0 "tick" ticking))).
Proof.
  apply (setState_at_yield_is_overwritten
           (consume [ANext] (start (FSM.new 0 "tick" ticking)))
           "tick"
           (createState
              (λ n, Normal {| event := {| type := "tick" |};
                              Types.context := S n |})
              (conditionalTransition [(λ _ n, bool_decide (n < 3), "tick")]
                 None)
              no_options)
           {| event := {| type := "tick" |}; Types.context := 1 |}
           "elsewhere" (Some "tick")); reflexivity.
Defined.

Lemma fields_after_first_event_of_quick_start :
  let ses := start (FSM.new 0 "idle" (quick_start (Err:=string))) in
  received (perform ANext ses) = [] ++ [Yielded {| type := "go" |}]
  ∧ value_of getCurrentState (engine (perform ANext ses))
    = Normal (Some "idle")
  ∧ value_of (isInState "idle") (engine (perform ANext ses)) = Normal true
  ∧ value_of getContext (engine (perform ANext ses)) = Normal 0
  ∧ quick_start (C:=nat) (Err:=string) !! "idle"
    = Some (createState (produce "go") (transitionTo "loading") no_options).
Proof.
  intros ses.
  apply (fields_when_an_event_comes_out ses "idle"
           (createState (produce "go") (transitionTo "loading") no_options)
           {| event := {| type := "go" |}; Types.context := 0 |}).
  reflexivity.
Defined.

Lemma failing_onError_run :
  received (perform ANext (start (FSM.new 0 "work" failing_onError)))
  = [] ++ [Rejected "bang"]
  ∧ observed (perform ANext (start (FSM.new 0 "work" failing_onError)))
    = [] ++ [] ++ [CallExecute "work" 0 (Throw "boom")]
        ++ [CallOnError "work" "boom" 0]
  ∧ engine (perform ANext (start (FSM.new 0 "work" failing_onError)))
    = with_context 0 (FSM.new 0 "work" failing_onError)
  ∧ generator (perform ANext (start (FSM.new 0 "work" failing_onError)))
    = Completed.
Proof.
  apply (failure_of_onError_replaces_the_failure
           (start (FSM.new 0 "work" failing_onError)) []
           (FSM.new 0 "work" failing_onError) "work" raising_onError
           "boom" 0 [CallExecute "work" 0 (Throw "boom")]
           (λ _ _, Throw "bang") "bang").
  - apply from_start.
  - reflexivity.
  - exact (execute_raises "work" raising_onError 0 "boom" I eq_refl).
  - reflexivity.
  - reflexivity.
Defined.

Lemma reset_does_not_restart_a_failed_run :
  generator
    (consume [AReset (Some 7) (Some "work"); ANext; ANext]
       (perform ANext (start (FSM.new 0 "work" failing_execute))))
  = Completed
  ∧ observed
      (consume [AReset (Some 7) (Some "work"); ANext; ANext]
         (perform ANext (start (FSM.new 0 "work" failing_execute))))
    = observed (perform ANext (start (FSM.new 0 "work" failing_execute)))
  ∧ ∃ n,
      received
        (consume [AReset (Some 7) (Some "work"); ANext; ANext]
           (perform ANext (start (FSM.new 0 "work" failing_execute))))
      = received (perform ANext (start (FSM.new 0 "work" failing_execute)))
          ++ replicate n Done.
Proof.
  apply (completed_generator_stays_completed
           (perform ANext (start (FSM.new 0 "work" failing_execute)))).
  reflexivity.
Defined.

Lemma quick_start_events_are_those_executed :
  ∃ res,
    for_await 3 (run (FSM.new 0 "idle" (quick_start (Err:=string))))
      (FSM.new 0 "idle" quick_start) = Some res
    ∧ executed (effects res) = events res
    ∧ events res = [ {| type := "go" |}; {| type := "done" |} ].
Proof.
  eexists. split; [reflexivity|]. split; [|reflexivity].
  refine (proj1 (proj2 (every_returned_execute_gives_one_event 3
                          (run (FSM.new 0 "idle" (quick_start (Err:=string))))
                          (FSM.new 0 "idle" quick_start) _ eq_refl))
            eq_refl).
Defined.

Lemma empty_state_with_handler_does_not_run :
  next (run (FSM.new 0 "" empty_state_machine))
    (FSM.new 0 "" empty_state_machine)
  = (Done, FSM.new 0 "" empty_state_machine, Completed, [])
  ∧ value_of getCurrentState (FSM.new 0 "" empty_state_machine)
    = Normal (Some "").
Proof.
  apply (empty_state_ends_the_run
           (run (FSM.new 0 "" empty_state_machine))
           (FSM.new 0 "" empty_state_machine) []
           (FSM.new 0 "" empty_state_machine)).
  - apply from_start.
  - reflexivity.
Defined.

(** Scenario 2: one event, then the run stops. *)
Lemma scenario2_run :
  ∃ res,
    for_await 2 (run (FSM.new 0 "work" scenario2)) (FSM.new 0 "work" scenario2)
      = Some res
    ∧ events res = [ {| type := "worked" |} ]
    ∧ outcome res = Normal ()
    ∧ final res = with_currentState None
                    (with_context 1 (FSM.new 0 "work" scenario2))
    ∧ final_generator res = Completed.
Proof.
  apply (step_with_null_transition_is_the_last
           (FSM.new 0 "work" scenario2) "work" unmatched
           {| event := {| type := "worked" |}; Types.context := 1 |} 0).
  - reflexivity.
  - exact I.
  - reflexivity.
  - exact I.
  - reflexivity.
Defined.



End further_instances.
